(** * LinkedToEpstein: a shallow embedding of [linked_to_epstein.py]

    The script reads a LinkedIn connections export, asks a remote search
    service how often every contact is mentioned, and writes an HTML report.
    This development embeds its three stages (contact extractor, lookup
    client, report renderer) together with the parts of the Python standard
    library they call, and proves the properties of the specification.

    Text is a list of Unicode code points.  Effects (HTTP requests, sleeps,
    console output, the written file) are recorded in a trace that is
    threaded through a small state-and-exception monad. *)

From Stdlib Require Import List NArith ZArith QArith String Ascii Bool Lia.
From Stdlib Require Import Permutation Sorted.
Import ListNotations.

Close Scope Q_scope.
Open Scope list_scope.

(* ================================================================== *)
(** * Python text and the built-in string operations the script uses    *)
(* ================================================================== *)

Module Py.

(** A character is a code point; [str] is Python's [str]. *)
Definition char := N.
Definition str := list char.

(** Reading of a source literal (each byte of the literal is one code point;
    every literal of the script is ASCII). *)
Definition lit (s : string) : str :=
  List.map N_of_ascii (list_ascii_of_string s).

Definition dq : char := 34%N.     (* the double quote *)
Definition nl : char := 10%N.     (* line feed *)
Definition cr : char := 13%N.     (* carriage return *)

Fixpoint eqb (a b : str) : bool :=
  match a, b with
  | [], [] => true
  | x :: a', y :: b' => N.eqb x y && eqb a' b'
  | _, _ => false
  end.

(** [s.startswith(p)] *)
Fixpoint startswith (p s : str) : bool :=
  match p, s with
  | [], _ => true
  | _ :: _, [] => false
  | x :: p', y :: s' => N.eqb x y && startswith p' s'
  end.

(** [p in s] *)
Fixpoint contains (p s : str) : bool :=
  startswith p s ||
  match s with
  | [] => false
  | _ :: s' => contains p s'
  end.

(** [str.isspace] on one character: the table of CPython's
    [_PyUnicode_IsWhitespace]. *)
Definition isspace (c : char) : bool :=
  ((9 <=? c) && (c <=? 13) || (28 <=? c) && (c <=? 32)
   || (c =? 133) || (c =? 160) || (c =? 5760)
   || (8192 <=? c) && (c <=? 8202)
   || (c =? 8232) || (c =? 8233) || (c =? 8239) || (c =? 8287)
   || (c =? 12288))%N.

Fixpoint lstrip (s : str) : str :=
  match s with
  | [] => []
  | c :: s' => if isspace c then lstrip s' else s
  end.

Definition rstrip (s : str) : str := rev (lstrip (rev s)).

(** [s.strip()] *)
Definition strip (s : str) : str := rstrip (lstrip s).

Fixpoint lstrip_char (x : char) (s : str) : str :=
  match s with
  | [] => []
  | c :: s' => if N.eqb c x then lstrip_char x s' else s
  end.

(** [s.rstrip(x)] for a one-character argument. *)
Definition rstrip_char (x : char) (s : str) : str :=
  rev (lstrip_char x (rev s)).

(** [s.replace(old, new)] for a non-empty [old]: occurrences are found left
    to right and do not overlap.  [skip] counts the characters of a match
    that are still to be dropped. *)
Fixpoint replace_from (old new : str) (skip : nat) (s : str) : str :=
  match s with
  | [] => []
  | c :: s' =>
      match skip with
      | S k => replace_from old new k s'
      | O =>
          if startswith old s
          then new ++ replace_from old new (pred (List.length old)) s'
          else c :: replace_from old new O s'
      end
  end.

Definition replace (old new s : str) : str := replace_from old new O s.

(** Line boundaries of [str.splitlines]: the table of CPython's
    [_PyUnicode_IsLinebreak]. *)
Definition is_linebreak (c : char) : bool :=
  ((10 <=? c) && (c <=? 13) || (28 <=? c) && (c <=? 30)
   || (c =? 133) || (c =? 8232) || (c =? 8233))%N.

Fixpoint splitlines_from (cur : str) (s : str) : list str :=
  match s with
  | [] => match cur with [] => [] | _ => [rev cur] end
  | c :: t =>
      if N.eqb c cr then
        match t with
        | c' :: t' =>
            if N.eqb c' nl then rev cur :: splitlines_from [] t'
            else rev cur :: splitlines_from [] t
        | [] => rev cur :: splitlines_from [] t
        end
      else if is_linebreak c then rev cur :: splitlines_from [] t
      else splitlines_from (c :: cur) t
  end.

(** [s.splitlines()] *)
Definition splitlines (s : str) : list str := splitlines_from [] s.

(** [sep.join(parts)] *)
Fixpoint join (sep : str) (parts : list str) : str :=
  match parts with
  | [] => []
  | [p] => p
  | p :: rest => p ++ sep ++ join sep rest
  end.

(** Decimal digits of a natural number, as [str(n)] prints them. *)
Fixpoint digits_of_uint (d : Decimal.uint) : str :=
  match d with
  | Decimal.Nil => []
  | Decimal.D0 d' => 48%N :: digits_of_uint d'
  | Decimal.D1 d' => 49%N :: digits_of_uint d'
  | Decimal.D2 d' => 50%N :: digits_of_uint d'
  | Decimal.D3 d' => 51%N :: digits_of_uint d'
  | Decimal.D4 d' => 52%N :: digits_of_uint d'
  | Decimal.D5 d' => 53%N :: digits_of_uint d'
  | Decimal.D6 d' => 54%N :: digits_of_uint d'
  | Decimal.D7 d' => 55%N :: digits_of_uint d'
  | Decimal.D8 d' => 56%N :: digits_of_uint d'
  | Decimal.D9 d' => 57%N :: digits_of_uint d'
  end.

Definition digits (n : N) : str := digits_of_uint (N.to_uint n).

Definition sign (z : Z) : str :=
  match z with Zneg _ => [45%N] | _ => [] end.

(** [str(z)] / [f"{z}"] for an [int]. *)
Definition str_of_int (z : Z) : str := sign z ++ digits (Z.abs_N z).

(** Thousands separators are inserted from the right: [ds] is the reversed
    digit string, [k] the number of digits already in the current group. *)
Fixpoint group_rev (k : nat) (ds : str) : str :=
  match ds with
  | [] => []
  | d :: ds' =>
      match k with
      | 3%nat => 44%N :: d :: group_rev 1 ds'
      | _ => d :: group_rev (S k) ds'
      end
  end.

(** [f"{z:,}"] *)
Definition format_comma (z : Z) : str :=
  sign z ++ rev (group_rev 0 (rev (digits (Z.abs_N z)))).

(** [f"{z:6,}"]: right-aligned in a field of width six. *)
Definition format_comma6 (z : Z) : str :=
  let s := format_comma z in
  repeat 32%N (6 - List.length s) ++ s.

(** Python truthiness of a [str]. *)
Definition truthy (s : str) : bool :=
  match s with [] => false | _ => true end.

End Py.

Import Py.

(* ================================================================== *)
(** * Exceptions                                                        *)
(* ================================================================== *)

Inductive exn : Type :=
| AttributeError       (* a method is called on [None] *)
| UnicodeEncodeError   (* a text cannot be encoded as UTF-8 *)
| CsvError             (* [_csv.Error] *)
| SystemExit (code : Z).

Inductive result (A : Type) : Type :=
| Ok (a : A)
| Raise (e : exn).
Arguments Ok {A} a.
Arguments Raise {A} e.

Definition rbind {A B} (r : result A) (k : A -> result B) : result B :=
  match r with
  | Ok a => k a
  | Raise e => Raise e
  end.

Notation "'let?' x ':=' r 'in' k" := (rbind r (fun x => k))
  (at level 10, x name, r at level 100, k at level 200).

(** A generator that may raise: the values it yields, ended by exhaustion or
    by the exception that interrupts it. *)
Inductive gen (A : Type) : Type :=
| Stop
| Yield (a : A) (rest : gen A)
| Throw (e : exn).
Arguments Stop {A}.
Arguments Yield {A} a rest.
Arguments Throw {A} e.

(* ================================================================== *)
(** * html.escape                                                       *)
(* ================================================================== *)

Module Html.

Definition escape_char (c : char) : str :=
  if N.eqb c 38 then lit "&amp;"
  else if N.eqb c 60 then lit "&lt;"
  else if N.eqb c 62 then lit "&gt;"
  else if N.eqb c 34 then lit "&quot;"
  else if N.eqb c 39 then lit "&#x27;"
  else [c].

(** [html.escape(s)] with its default [quote=True]. *)
Definition escape (s : str) : str := flat_map escape_char s.

End Html.

(* ================================================================== *)
(** * urllib.parse.quote                                                *)
(* ================================================================== *)

Module Urllib.

(** UTF-8 encoding of one code point with [errors='strict']: surrogates are
    refused. *)
Definition utf8_char (c : char) : result (list N) :=
  (if c <? 128 then Ok [c]
   else if c <? 2048 then Ok [192 + c / 64; 128 + c mod 64]
   else if c <? 65536 then
     if (55296 <=? c) && (c <=? 57343) then Raise UnicodeEncodeError
     else Ok [224 + c / 4096; 128 + (c / 64) mod 64; 128 + c mod 64]
   else if c <? 1114112 then
     Ok [240 + c / 262144; 128 + (c / 4096) mod 64;
         128 + (c / 64) mod 64; 128 + c mod 64]
   else Raise UnicodeEncodeError)%N.

Fixpoint utf8 (s : str) : result (list N) :=
  match s with
  | [] => Ok []
  | c :: s' =>
      let? b := utf8_char c in
      let? bs := utf8 s' in
      Ok (b ++ bs)
  end.

(** Letters, digits and [_.-~] are never quoted. *)
Definition always_safe (b : N) : bool :=
  ((65 <=? b) && (b <=? 90) || (97 <=? b) && (b <=? 122)
   || (48 <=? b) && (b <=? 57)
   || (b =? 95) || (b =? 46) || (b =? 45) || (b =? 126))%N.

Definition hex_digit (n : N) : char :=
  (if n <? 10 then 48 + n else 55 + n)%N.

Definition quote_byte (safe : str) (b : N) : str :=
  if always_safe b || existsb (N.eqb b) safe then [b]
  else [37%N; hex_digit (b / 16); hex_digit (b mod 16)].

(** [urllib.parse.quote(s, safe=safe)] *)
Definition quote (s : str) (safe : str) : result str :=
  let? bytes := utf8 s in
  Ok (flat_map (quote_byte safe) bytes).

End Urllib.

(* ================================================================== *)
(** * csv.reader and csv.DictReader (dialect [excel])                   *)
(* ================================================================== *)

Module Csv.

Inductive state : Type :=
| START_RECORD | START_FIELD | IN_FIELD
| IN_QUOTED_FIELD | QUOTE_IN_QUOTED_FIELD | EAT_CRNL.

Definition state_eqb (a b : state) : bool :=
  match a, b with
  | START_RECORD, START_RECORD | START_FIELD, START_FIELD
  | IN_FIELD, IN_FIELD | IN_QUOTED_FIELD, IN_QUOTED_FIELD
  | QUOTE_IN_QUOTED_FIELD, QUOTE_IN_QUOTED_FIELD | EAT_CRNL, EAT_CRNL => true
  | _, _ => false
  end.

(** The parser of [_csv.c]: the fields saved so far, the field under
    construction (last character first) and its length. *)
Record reader : Type := mkReader {
  st : state;
  fields : list str;
  field : str;
  field_len : N
}.

Definition delimiter : char := 44%N.
Definition quotechar : char := 34%N.
Definition field_limit : N := 131072%N.

Definition parse_reset : reader := mkReader START_RECORD [] [] 0.

Definition set_state (s : state) (r : reader) : reader :=
  mkReader s (fields r) (field r) (field_len r).

Definition parse_save_field (r : reader) : reader :=
  mkReader (st r) (fields r ++ [rev (field r)]) [] 0.

Definition parse_add_char (r : reader) (c : char) : result reader :=
  if (field_limit <=? field_len r)%N then Raise CsvError
  else Ok (mkReader (st r) (fields r) (c :: field r) (field_len r + 1)).

Definition is_crnl (c : char) : bool := N.eqb c nl || N.eqb c cr.

(** One step of the automaton; [None] is the end-of-line marker the reader
    feeds after the last character of every line.  The dialect has no escape
    character, [doublequote] is on and [strict] is off. *)
Definition start_field (r : reader) (c : option char) : result reader :=
  match c with
  | None => Ok (set_state START_RECORD (parse_save_field r))
  | Some x =>
      if is_crnl x then Ok (set_state EAT_CRNL (parse_save_field r))
      else if N.eqb x quotechar then Ok (set_state IN_QUOTED_FIELD r)
      else if N.eqb x delimiter then Ok (parse_save_field r)
      else let? r' := parse_add_char r x in Ok (set_state IN_FIELD r')
  end.

Definition parse_process_char (r : reader) (c : option char) : result reader :=
  match st r with
  | START_RECORD =>
      match c with
      | None => Ok r
      | Some x =>
          if is_crnl x then Ok (set_state EAT_CRNL r)
          else start_field (set_state START_FIELD r) c
      end
  | START_FIELD => start_field r c
  | IN_FIELD =>
      match c with
      | None => Ok (set_state START_RECORD (parse_save_field r))
      | Some x =>
          if is_crnl x then Ok (set_state EAT_CRNL (parse_save_field r))
          else if N.eqb x delimiter
          then Ok (set_state START_FIELD (parse_save_field r))
          else parse_add_char r x
      end
  | IN_QUOTED_FIELD =>
      match c with
      | None => Ok r
      | Some x =>
          if N.eqb x quotechar then Ok (set_state QUOTE_IN_QUOTED_FIELD r)
          else parse_add_char r x
      end
  | QUOTE_IN_QUOTED_FIELD =>
      match c with
      | None => Ok (set_state START_RECORD (parse_save_field r))
      | Some x =>
          if N.eqb x quotechar
          then let? r' := parse_add_char r x in Ok (set_state IN_QUOTED_FIELD r')
          else if N.eqb x delimiter
          then Ok (set_state START_FIELD (parse_save_field r))
          else if is_crnl x then Ok (set_state EAT_CRNL (parse_save_field r))
          else let? r' := parse_add_char r x in Ok (set_state IN_FIELD r')
      end
  | EAT_CRNL =>
      match c with
      | None => Ok (set_state START_RECORD r)
      | Some x => if is_crnl x then Ok r else Raise CsvError
      end
  end.

Fixpoint process_line (r : reader) (line : str) : result reader :=
  match line with
  | [] => Ok r
  | c :: line' =>
      let? r' := parse_process_char r (Some c) in
      process_line r' line'
  end.

(** [Reader_iternext], called until the input is exhausted: a record is
    complete when the automaton is back in [START_RECORD] after a line;
    otherwise the next line continues it.  At the end of the input an
    unfinished record is returned as it stands. *)
Fixpoint rows_from (r : reader) (lines : list str) : gen (list str) :=
  match lines with
  | [] =>
      if negb (N.eqb (field_len r) 0) || state_eqb (st r) IN_QUOTED_FIELD
      then Yield (fields (parse_save_field r)) Stop
      else Stop
  | line :: lines' =>
      match process_line r line with
      | Raise e => Throw e
      | Ok r1 =>
          match parse_process_char r1 None with
          | Raise e => Throw e
          | Ok r2 =>
              if state_eqb (st r2) START_RECORD
              then Yield (fields r2) (rows_from parse_reset lines')
              else rows_from r2 lines'
          end
      end
  end.

(** [csv.reader(lines)] *)
Definition reader_rows (lines : list str) : gen (list str) :=
  rows_from parse_reset lines.

(** A row of [DictReader]: the values under the column names ([None] is
    Python's [None], the [restval] of a short row) and, for a long row, the
    surplus values stored under the key [None]. *)
Record row_dict : Type := mkRow {
  named : list (str * option str);
  rest : option (list str)
}.

Fixpoint dict_set {V} (d : list (str * V)) (k : str) (v : V) : list (str * V) :=
  match d with
  | [] => [(k, v)]
  | (k', v') :: d' =>
      if Py.eqb k k' then (k, v) :: d' else (k', v') :: dict_set d' k v
  end.

Fixpoint dict_get {V} (d : list (str * V)) (k : str) : option V :=
  match d with
  | [] => None
  | (k', v') :: d' => if Py.eqb k k' then Some v' else dict_get d' k
  end.

(** [dict(zip(fieldnames, row))] and the treatment of long and short rows in
    [DictReader.__next__]. *)
Definition to_dict (fieldnames row : list str) : row_dict :=
  let d := fold_left (fun d kv => dict_set d (fst kv) (Some (snd kv)))
                     (combine fieldnames row) [] in
  let lf := List.length fieldnames in
  let lr := List.length row in
  if (lf <? lr)%nat then mkRow d (Some (skipn lf row))
  else if (lr <? lf)%nat
  then mkRow (fold_left (fun d k => dict_set d k None) (skipn lr fieldnames) d)
             None
  else mkRow d None.

(** Blank rows are skipped. *)
Fixpoint dict_rows (fieldnames : list str) (g : gen (list str)) : gen row_dict :=
  match g with
  | Stop => Stop
  | Throw e => Throw e
  | Yield [] g' => dict_rows fieldnames g'
  | Yield row g' => Yield (to_dict fieldnames row) (dict_rows fieldnames g')
  end.

(** [csv.DictReader(lines)]: the first record gives the column names. *)
Definition DictReader (lines : list str) : gen row_dict :=
  match reader_rows lines with
  | Stop => Stop
  | Throw e => Throw e
  | Yield fieldnames g => dict_rows fieldnames g
  end.

(** [row.get(key, default)] *)
Definition get (row : row_dict) (key default : str) : option str :=
  match dict_get (named row) key with
  | Some v => v
  | None => Some default
  end.

End Csv.

(* ================================================================== *)
(** * The world of the script: remote service, clock, console, files    *)
(* ================================================================== *)

(** One hit of the search service; every field is optional in the JSON. *)
Record Hit : Type := mkHit {
  content_preview : option str;
  content : option str;
  file_path : option str
}.

(** The JSON body of a reply: [success] is the truth value of
    [data.get('success')], [api_data] the object under ['data']. *)
Record ApiData : Type := mkApiData {
  totalHits : option Z;
  api_hits : option (list Hit)
}.

Record ApiBody : Type := mkApiBody {
  success : bool;
  api_data : option ApiData
}.

(** What [requests.get] followed by [raise_for_status] and [json] gives:
    a [RequestException] (connection error, timeout, HTTP error status,
    undecodable body) with its message, or the decoded body. *)
Inductive Reply : Type :=
| RequestException (msg : str)
| Json (body : ApiBody).

Inductive Event : Type :=
| HttpGet (url : str)
| Sleep (seconds : Q)
| Stdout (text : str)
| Stderr (text : str)
| OpenWrite (path : str)
| FileWrite (path : str) (text : str).

(** The remote service: its reply to a URL, given the number of requests
    the run has made before. *)
Definition Remote : Type := str -> nat -> Reply.

(** A computation starts with the number of requests made so far and gives a
    value or an exception, the events it caused, and the new number. *)
Definition M (A : Type) : Type := nat -> result A * list Event * nat.

Definition ret {A} (a : A) : M A := fun n => (Ok a, [], n).

Definition raise {A} (e : exn) : M A := fun n => (Raise e, [], n).

Definition lift {A} (r : result A) : M A := fun n => (r, [], n).

Definition bind {A B} (m : M A) (k : A -> M B) : M B :=
  fun n =>
    match m n with
    | (Ok a, t, n') =>
        match k a n' with
        | (r, t', n'') => (r, t ++ t', n'')
        end
    | (Raise e, t, n') => (Raise e, t, n')
    end.

Notation "x <- m ;; k" := (bind m (fun x => k))
  (at level 61, m at next level, right associativity).
Notation "m ;; k" := (bind m (fun _ => k))
  (at level 61, right associativity).

Definition emit (e : Event) : M unit := fun n => (Ok tt, [e], n).

Definition print (text : str) : M unit := emit (Stdout text).
Definition print_err (text : str) : M unit := emit (Stderr text).
Definition sleep (seconds : Q) : M unit := emit (Sleep seconds).

Definition http_get (remote : Remote) (url : str) : M Reply :=
  fun n => (Ok (remote url n), [HttpGet url], S n).

(** The outcome, the trace and the request count of a run. *)
Definition outcome {A} (x : result A * list Event * nat) : result A := fst (fst x).
Definition trace {A} (x : result A * list Event * nat) : list Event := snd (fst x).

(* ================================================================== *)
(** * The script                                                        *)
(* ================================================================== *)

Definition API_BASE_URL : str := lit "https://analytics.dugganusa.com/api/v1/search".
Definition PDF_BASE_URL : str := lit "https://www.justice.gov/epstein/files/".

(** A source literal between double quotes. *)
Definition quoted (s : string) : str := dq :: lit s ++ [dq].

(** ** Contact extractor *)

Record Contact : Type := mkContact {
  first_name : str;
  last_name : str;
  full_name : str;
  company : option str;
  position : option str
}.

(** [open(csv_path, 'r', encoding='utf-8-sig')]: a leading byte-order mark
    is dropped and, the file being opened in text mode with universal
    newlines, [\r\n] and [\r] are read as [\n]. *)
Definition skip_bom (s : str) : str :=
  match s with
  | c :: s' => if N.eqb c 65279 then s' else s
  | [] => []
  end.

Fixpoint universal_newlines (s : str) : str :=
  match s with
  | [] => []
  | c :: t =>
      if N.eqb c cr then
        match t with
        | c' :: t' =>
            if N.eqb c' nl then nl :: universal_newlines t'
            else nl :: universal_newlines t
        | [] => [nl]
        end
      else c :: universal_newlines t
  end.

Definition open_text (decoded : str) : str :=
  universal_newlines (skip_bom decoded).

(** The lines a text file iterates over, each with its [\n]. *)
Fixpoint readlines_from (cur : str) (s : str) : list str :=
  match s with
  | [] => match cur with [] => [] | _ => [rev cur] end
  | c :: t =>
      if N.eqb c nl then rev (c :: cur) :: readlines_from [] t
      else readlines_from (c :: cur) t
  end.

Definition readlines (s : str) : list str := readlines_from [] s.

Definition is_header (line : str) : bool :=
  contains (lit "First Name") line && contains (lit "Last Name") line.

(** The loop that skips the notes LinkedIn puts above the header row: the
    header line and the lines the file still holds after it. *)
Fixpoint find_header (lines : list str) : option (str * list str) :=
  match lines with
  | [] => None
  | line :: lines' =>
      if is_header line then Some (line, lines') else find_header lines'
  end.

(** [row.get(key, '').strip()]; [None] has no [strip]. *)
Definition get_stripped (row : Csv.row_dict) (key : string) : result str :=
  match Csv.get row (lit key) [] with
  | Some s => Ok (strip s)
  | None => Raise AttributeError
  end.

(** The body of [for row in reader]. *)
Definition contact_of_row (row : Csv.row_dict) : result (option Contact) :=
  let? first := get_stripped row "First Name" in
  let? last := get_stripped row "Last Name" in
  if truthy first && truthy last
  then Ok (Some (mkContact first last (first ++ lit " " ++ last)
                           (Csv.get row (lit "Company") [])
                           (Csv.get row (lit "Position") [])))
  else Ok None.

Fixpoint read_rows (g : gen Csv.row_dict) (contacts : list Contact)
  : result (list Contact) :=
  match g with
  | Stop => Ok contacts
  | Throw e => Raise e
  | Yield row g' =>
      let? c := contact_of_row row in
      match c with
      | Some contact => read_rows g' (contacts ++ [contact])
      | None => read_rows g' contacts
      end
  end.

(** [parse_linkedin_contacts], on the decoded content of the file. *)
Definition parse_linkedin_contacts (decoded : str) : result (list Contact) :=
  match find_header (readlines (open_text decoded)) with
  | None => Ok []
  | Some (header_line, remaining) =>
      let remaining_content := header_line ++ List.concat remaining in
      read_rows (Csv.DictReader (splitlines remaining_content)) []
  end.

(** ** Lookup client *)

Record SearchResult : Type := mkSearchResult {
  total_hits : Z;
  hits : list Hit;
  error : option str
}.

Definition no_hits : SearchResult := mkSearchResult 0 [] None.

(** [data.get('data', {}).get('totalHits', 0)] and
    [data.get('data', {}).get('hits', [])] *)
Definition body_total_hits (body : ApiBody) : Z :=
  match api_data body with
  | Some d => match totalHits d with Some z => z | None => 0%Z end
  | None => 0%Z
  end.

Definition body_hits (body : ApiBody) : list Hit :=
  match api_data body with
  | Some d => match api_hits d with Some l => l | None => [] end
  | None => []
  end.

Definition warning (name msg : str) : str :=
  lit "Warning: API request failed for '" ++ name ++ lit "': " ++ msg ++ [nl].

(** The loop [for attempt in range(max_retries)], over the attempts that
    are left. *)
Fixpoint attempts (remote : Remote) (name url : str) (max_retries : Z)
                  (range : list nat) : M SearchResult :=
  match range with
  | [] => ret no_hits
  | attempt :: range' =>
      reply <- http_get remote url ;;
      match reply with
      | Json body =>
          if success body
          then ret (mkSearchResult (body_total_hits body) (body_hits body) None)
          else ret no_hits
      | RequestException e =>
          if (Z.of_nat attempt <? max_retries - 1)%Z
          then sleep 1 ;; attempts remote name url max_retries range'
          else print_err (warning name e) ;;
               ret (mkSearchResult 0 [] (Some e))
      end
  end.

(** The request URL: the name between double quotes, percent-encoded. *)
Definition lookup_url (name : str) : result str :=
  let quoted_name := dq :: name ++ [dq] in
  let? encoded_name := Urllib.quote quoted_name (lit "/") in
  Ok (API_BASE_URL ++ lit "?q=" ++ encoded_name ++ lit "&indexes=epstein_files").

Definition search_epstein_files (remote : Remote) (name : str) (max_retries : Z)
  : M SearchResult :=
  url <- lift (lookup_url name) ;;
  attempts remote name url max_retries (seq 0 (Z.to_nat max_retries)).

(** ** Report renderer *)

(** One entry of the report: the dictionary [main] appends to [results]. *)
Record Result : Type := mkResult {
  name : str;
  result_first_name : str;
  result_last_name : str;
  result_company : option str;
  result_position : option str;
  total_mentions : Z;
  result_hits : list Hit
}.

(** The pieces of the document between the interpolated values. *)
Definition head_open : str :=
  lit "<!DOCTYPE html>
<html lang="
  ++ quoted "en"
  ++ lit ">
<head>
    <meta charset="
  ++ quoted "UTF-8"
  ++ lit ">
    <meta name="
  ++ quoted "viewport"
  ++ lit " content="
  ++ quoted "width=device-width, initial-scale=1.0"
  ++ lit ">
    <title>LinkedIn Contacts in Epstein Files</title>
    <style>
        * {
            box-sizing: border-box;
        }
        body {
            font-family: -apple-system, BlinkMacSystemFont, 'Segoe UI', Roboto, Oxygen, Ubuntu, sans-serif;
            line-height: 1.6;
            max-width: 1200px;
            margin: 0 auto;
            padding: 20px;
            background-color: #f5f5f5;
        }
        h1 {
            color: #333;
            border-bottom: 2px solid #333;
            padding-bottom: 10px;
        }
        .summary {
            background: #fff;
            padding: 20px;
            border-radius: 8px;
            margin-bottom: 30px;
            box-shadow: 0 2px 4px rgba(0,0,0,0.1);
        }
        .contact {
            background: #fff;
            padding: 20px;
            margin-bottom: 20px;
            border-radius: 8px;
            box-shadow: 0 2px 4px rgba(0,0,0,0.1);
        }
        .contact-header {
            display: flex;
            justify-content: space-between;
            align-items: center;
            border-bottom: 1px solid #eee;
            padding-bottom: 10px;
            margin-bottom: 15px;
        }
        .contact-name {
            font-size: 1.4em;
            font-weight: bold;
            color: #333;
        }
        .contact-info {
            color: #666;
            font-size: 0.9em;
        }
        .hit-count {
            background: #e74c3c;
            color: white;
            padding: 5px 15px;
            border-radius: 20px;
            font-weight: bold;
        }
        .hit {
            background: #f9f9f9;
            padding: 15px;
            margin-bottom: 10px;
            border-radius: 4px;
            border-left: 3px solid #3498db;
        }
        .hit-preview {
            color: #444;
            margin-bottom: 10px;
            font-size: 0.95em;
        }
        .hit-link {
            display: inline-block;
            color: #3498db;
            text-decoration: none;
            font-size: 0.85em;
        }
        .hit-link:hover {
            text-decoration: underline;
        }
        .no-results {
            color: #999;
            font-style: italic;
        }
        .footer {
            margin-top: 40px;
            padding-top: 20px;
            border-top: 1px solid #ddd;
            text-align: center;
            color: #666;
            font-size: 0.9em;
        }
        .footer a {
            color: #3498db;
            text-decoration: none;
        }
        .footer a:hover {
            text-decoration: underline;
        }
    </style>
</head>
<body>
    <h1>LinkedIn Contacts in Epstein Files</h1>

    <div class="
  ++ quoted "summary"
  ++ lit ">
        <strong>Total contacts searched:</strong> ".

Definition head_middle : str :=
  lit "<br>
        <strong>Contacts with mentions:</strong> ".

Definition head_close : str :=
  lit "
    </div>
".

Definition block_open : str :=
  lit "
    <div class="
  ++ quoted "contact"
  ++ lit ">
        <div class="
  ++ quoted "contact-header"
  ++ lit ">
            <div>
                <div class="
  ++ quoted "contact-name"
  ++ lit ">".

Definition block_info : str :=
  lit "</div>
                <div class="
  ++ quoted "contact-info"
  ++ lit ">".

Definition block_count : str :=
  lit "</div>
            </div>
            <div class="
  ++ quoted "hit-count"
  ++ lit ">".

Definition block_header_close : str :=
  lit " mentions</div>
        </div>
".

Definition hit_open : str :=
  lit "
        <div class="
  ++ quoted "hit"
  ++ lit ">
            <div class="
  ++ quoted "hit-preview"
  ++ lit ">".

Definition hit_middle : str :=
  lit "</div>
            ".

Definition link_open : str :=
  lit "<a class=" ++ quoted "hit-link" ++ lit " href=" ++ [dq].

Definition link_middle : str :=
  [dq] ++ lit " target=" ++ quoted "_blank" ++ lit ">View PDF: ".

Definition link_close : str := lit "</a>".

Definition hit_close : str :=
  lit "
        </div>
".

Definition no_results : str :=
  lit "
        <div class="
  ++ quoted "no-results"
  ++ lit ">Hit details not available</div>
".

Definition block_close : str :=
  lit "
    </div>
".

Definition footer : str :=
  lit "
    <div class="
  ++ quoted "footer"
  ++ lit ">
        Epstein files indexed by <a href="
  ++ quoted "https://dugganusa.com"
  ++ lit " target="
  ++ quoted "_blank"
  ++ lit ">DugganUSA.com</a>
    </div>
</body>
</html>
".

(** [if v: contact_info.append(html.escape(v))]; [None] and the empty text
    are false. *)
Definition escaped_if_set (v : option str) : list str :=
  match v with
  | Some s => if truthy s then [Html.escape s] else []
  | None => []
  end.

Definition contact_info (r : Result) : list str :=
  escaped_if_set (result_position r) ++ escaped_if_set (result_company r).

(** [' at '.join(contact_info) if contact_info else ''] *)
Definition contact_info_text (r : Result) : str :=
  match contact_info r with
  | [] => []
  | info => join (lit " at ") info
  end.

(** [hit.get(key, '')] *)
Definition hit_get (v : option str) : str :=
  match v with
  | Some s => s
  | None => []
  end.

(** [hit.get('content_preview', '') or hit.get('content', '')[:500]] *)
Definition preview_of (hit : Hit) : str :=
  let p := hit_get (content_preview hit) in
  if truthy p then p else firstn 500 (hit_get (content hit)).

(** The file path as displayed and the link derived from it. *)
Definition pdf_link (hit : Hit) : result (str * str) :=
  let file_path := hit_get (file_path hit) in
  if truthy file_path then
    let file_path := replace (lit "dataset") (lit "DataSet") file_path in
    let base_url :=
      if startswith (lit "/") file_path
      then rstrip_char 47%N PDF_BASE_URL
      else PDF_BASE_URL in
    let? quoted_path := Urllib.quote file_path (lit "/") in
    Ok (file_path, base_url ++ quoted_path)
  else Ok (file_path, []).

Definition render_link (file_path pdf_url : str) : str :=
  if truthy pdf_url
  then link_open ++ Html.escape pdf_url ++ link_middle
       ++ Html.escape file_path ++ link_close
  else [].

Definition render_hit (hit : Hit) : result str :=
  let preview := preview_of hit in
  let? link := pdf_link hit in
  Ok (hit_open ++ Html.escape preview ++ hit_middle
      ++ render_link (fst link) (snd link) ++ hit_close).

Fixpoint render_hits (hs : list Hit) : result str :=
  match hs with
  | [] => Ok []
  | h :: hs' =>
      let? a := render_hit h in
      let? b := render_hits hs' in
      Ok (a ++ b)
  end.

Definition block_header (r : Result) : str :=
  block_open ++ Html.escape (name r) ++ block_info ++ contact_info_text r
  ++ block_count ++ format_comma (total_mentions r) ++ block_header_close.

(** The detail block of one result. *)
Definition render_block (r : Result) : result str :=
  let? body :=
    match result_hits r with
    | [] => Ok no_results
    | hs => render_hits hs
    end in
  Ok (block_header r ++ body ++ block_close).

(** The body of [for result in results]: a result without mentions is
    passed over. *)
Definition render_result (r : Result) : result str :=
  if (total_mentions r =? 0)%Z then Ok [] else render_block r.

Fixpoint render_results (results : list Result) : result str :=
  match results with
  | [] => Ok []
  | r :: results' =>
      let? a := render_result r in
      let? b := render_results results' in
      Ok (a ++ b)
  end.

Definition has_mentions (r : Result) : bool := (0 <? total_mentions r)%Z.

Definition summary (results : list Result) : str :=
  let contacts_with_mentions := List.length (filter has_mentions results) in
  head_open ++ str_of_int (Z.of_nat (List.length results)) ++ head_middle
  ++ str_of_int (Z.of_nat contacts_with_mentions) ++ head_close.

Definition html_content (results : list Result) : result str :=
  let? body := render_results results in
  Ok (summary results ++ body ++ footer).

(** [generate_html_report]: the file is opened for writing, and writing
    encodes the document as UTF-8. *)
Definition generate_html_report (results : list Result) (output_path : str)
  : M unit :=
  document <- lift (html_content results) ;;
  emit (OpenWrite output_path) ;;
  _ <- lift (Urllib.utf8 document) ;;
  emit (FileWrite output_path document).

(** ** Main program *)

Record Args : Type := mkArgs {
  contacts : option str;
  output : str;
  min_mentions : Z;
  delay : Q
}.

Definition usage : str :=
  lit "
No contacts file specified.

To export your LinkedIn connections:
  1. Go to linkedin.com and log in
  2. Click your profile icon in the top right
  3. Select "
  ++ quoted "Settings & Privacy"
  ++ lit "
  4. Click "
  ++ quoted "Data privacy"
  ++ lit " in the left sidebar
  5. Under "
  ++ quoted "How LinkedIn uses your data"
  ++ lit ", click "
  ++ quoted "Get a copy of your data"
  ++ lit "
  6. Select "
  ++ quoted "Connections"
  ++ lit " (or "
  ++ quoted "Want something in particular?"
  ++ lit " and check Connections)
  7. Click "
  ++ quoted "Request archive"
  ++ lit "
  8. Wait for LinkedIn's email (may take up to 24 hours)
  9. Download and extract the ZIP file
  10. Use the Connections.csv file with this script:

     python linked_to_epstein.py --contacts /path/to/Connections.csv

".

Definition exit {A} (code : Z) : M A := raise (SystemExit code).

Definition Qpositive (q : Q) : bool := (0 <? Qnum q)%Z.

Definition result_of (contact : Contact) (found : SearchResult) : Result :=
  mkResult (full_name contact) (first_name contact) (last_name contact)
           (company contact) (position contact)
           (total_hits found) (hits found).

Definition progress (i n : nat) (contact : Contact) : str :=
  lit "  [" ++ str_of_int (Z.of_nat i + 1) ++ lit "/"
  ++ str_of_int (Z.of_nat n) ++ lit "] " ++ full_name contact.

(** The loop [for i, contact in enumerate(contacts)]: [n] is
    [len(contacts)], [i] the index of the first contact still to search,
    [results] the list built so far. *)
Fixpoint search_contacts (remote : Remote) (args : Args) (n i : nat)
    (todo : list Contact) (results : list Result) : M (list Result) :=
  match todo with
  | [] => ret results
  | contact :: todo' =>
      print (progress i n contact) ;;
      search_result <- search_epstein_files remote (full_name contact) 1 ;;
      let total_mentions := total_hits search_result in
      print (lit " -> " ++ str_of_int total_mentions ++ lit " hits" ++ [nl]) ;;
      let results' :=
        if (min_mentions args <=? total_mentions)%Z
        then results ++ [result_of contact search_result]
        else results in
      (if Qpositive (delay args) && (Z.of_nat i <? Z.of_nat n - 1)%Z
       then sleep (delay args) else ret tt) ;;
      search_contacts remote args n (S i) todo' results'
  end.

(** [results.sort(key=lambda x: x['total_mentions'], reverse=True)]: the
    sort of Python is stable, also in reverse, which fixes its result; an
    insertion sort computes it. *)
Fixpoint insert_desc (x : Result) (l : list Result) : list Result :=
  match l with
  | [] => [x]
  | y :: l' =>
      if (total_mentions x <? total_mentions y)%Z
      then y :: insert_desc x l'
      else x :: l
  end.

Definition sort_by_mentions (l : list Result) : list Result :=
  fold_right insert_desc [] l.

Definition rule : str := repeat 61%N 60.

Fixpoint print_top (rs : list Result) : M unit :=
  match rs with
  | [] => ret tt
  | r :: rs' =>
      print (lit "  " ++ format_comma6 (total_mentions r) ++ lit " - "
             ++ name r ++ [nl]) ;;
      print_top rs'
  end.

Definition print_summary (n : nat) (results : list Result) (out : str)
  : M unit :=
  let contacts_with_mentions := filter has_mentions results in
  print ([nl] ++ rule ++ [nl]) ;;
  print (lit "SUMMARY" ++ [nl]) ;;
  print (rule ++ [nl]) ;;
  print (lit "Total contacts searched: " ++ str_of_int (Z.of_nat n) ++ [nl]) ;;
  print (lit "Contacts with mentions: "
         ++ str_of_int (Z.of_nat (List.length contacts_with_mentions)) ++ [nl]) ;;
  match contacts_with_mentions with
  | [] => print ([nl] ++ lit "No contacts found in the Epstein files." ++ [nl])
  | _ => print ([nl] ++ lit "Top mentions:" ++ [nl]) ;;
         print_top (firstn 20 contacts_with_mentions)
  end ;;
  print ([nl] ++ lit "Full report saved to: " ++ out ++ [nl]).

(** The part of [main] that follows the parsing of the contacts. *)
Definition search_and_report (remote : Remote) (args : Args)
    (parsed : list Contact) : M unit :=
  print (lit "Searching Epstein files API..." ++ [nl]) ;;
  results <- search_contacts remote args (List.length parsed) 0 parsed [] ;;
  let results := sort_by_mentions results in
  print ([nl] ++ lit "Writing report to: " ++ output args ++ [nl]) ;;
  generate_html_report results (output args) ;;
  print_summary (List.length parsed) results (output args).

(** [main]: [has_requests] is the module flag [HAS_REQUESTS], [files] gives
    the decoded content of the files that exist. *)
Definition main (has_requests : bool) (files : str -> option str)
    (remote : Remote) (args : Args) : M unit :=
  if negb has_requests then
    print_err (lit "Error: 'requests' library is required. Install with: pip install requests" ++ [nl]) ;;
    exit 1
  else
    match contacts args with
    | None => print (usage) ;; exit 1
    | Some [] => print (usage) ;; exit 1
    | Some path =>
        match files path with
        | None =>
            print_err (lit "Error: Contacts file not found: " ++ path ++ [nl]) ;;
            exit 1
        | Some decoded =>
            print (lit "Reading LinkedIn contacts from: " ++ path ++ [nl]) ;;
            parsed <- lift (parse_linkedin_contacts decoded) ;;
            print (lit "Found " ++ str_of_int (Z.of_nat (List.length parsed))
                   ++ lit " contacts" ++ [nl]) ;;
            match parsed with
            | [] =>
                print_err (lit "No contacts found in CSV. Check the file format." ++ [nl]) ;;
                exit 1
            | _ => search_and_report remote args parsed
            end
        end
    end.

(* ================================================================== *)
(** * Vocabulary of the properties                                      *)
(* ================================================================== *)

(** [t] happens first, then the run [x]. *)
Definition after {A} (t : list Event) (x : result A * list Event * nat)
  : result A * list Event * nat :=
  (outcome x, t ++ trace x, snd x).

(** The requests of a lookup whose first [k] attempts are retried. *)
Fixpoint retries (url : str) (k : nat) : list Event :=
  match k with
  | O => []
  | S k' => HttpGet url :: Sleep 1 :: retries url k'
  end.

(** The pause [main] makes after the contact of index [i] out of [n]. *)
Definition pause (args : Args) (i n : nat) : list Event :=
  if Qpositive (delay args) && (Z.of_nat i <? Z.of_nat n - 1)%Z
  then [Sleep (delay args)] else [].

(** What one attempt that is not retried makes of the reply. *)
Definition result_of_reply (reply : Reply) : SearchResult :=
  match reply with
  | Json body =>
      if success body
      then mkSearchResult (body_total_hits body) (body_hits body) None
      else no_hits
  | RequestException e => mkSearchResult 0 [] (Some e)
  end.

Definition warning_of_reply (name : str) (reply : Reply) : list Event :=
  match reply with
  | Json _ => []
  | RequestException e => [Stderr (warning name e)]
  end.

Definition hits_line (total : Z) : str :=
  lit " -> " ++ str_of_int total ++ lit " hits" ++ [nl].

(** The lookups of [main], one request each: what is found for the URLs
    [urls] when [k] requests were made before. *)
Fixpoint founds (remote : Remote) (urls : list str) (k : nat)
  : list SearchResult :=
  match urls with
  | [] => []
  | u :: urls' => result_of_reply (remote u k) :: founds remote urls' (S k)
  end.

(** The entries that pass the threshold, in the order of the contacts. *)
Fixpoint kept (args : Args) (todo : list Contact) (fs : list SearchResult)
  : list Result :=
  match todo, fs with
  | c :: todo', f :: fs' =>
      (if (min_mentions args <=? total_hits f)%Z then [result_of c f] else [])
      ++ kept args todo' fs'
  | _, _ => []
  end.

(** The events of the search loop. *)
Fixpoint loop_trace (remote : Remote) (args : Args) (n i : nat)
    (todo : list Contact) (urls : list str) (k : nat) : list Event :=
  match todo, urls with
  | c :: todo', u :: urls' =>
      [Stdout (progress i n c); HttpGet u]
      ++ warning_of_reply (full_name c) (remote u k)
      ++ [Stdout (hits_line (total_hits (result_of_reply (remote u k))))]
      ++ pause args i n
      ++ loop_trace remote args n (S i) todo' urls' (S k)
  | _, _ => []
  end.

(** The URL of every contact of [todo] is in [urls]. *)
Definition urls_of (todo : list Contact) (urls : list str) : Prop :=
  Forall2 (fun c u => lookup_url (full_name c) = Ok u) todo urls.

(** Requests and sleeps of a trace, in order. *)
Definition is_network (e : Event) : bool :=
  match e with
  | HttpGet _ | Sleep _ => true
  | _ => false
  end.

Definition network_events (t : list Event) : list Event := filter is_network t.

Definition is_sleep (e : Event) : bool :=
  match e with
  | Sleep _ => true
  | _ => false
  end.

Fixpoint intersperse {A} (sep : A) (l : list A) : list A :=
  match l with
  | [] => []
  | [x] => [x]
  | x :: l' => x :: sep :: intersperse sep l'
  end.

(** The order of the report, and the entries with a given count. *)
Definition by_mentions_desc (a b : Result) : Prop :=
  (total_mentions b <= total_mentions a)%Z.

Definition with_mentions (m : Z) (r : Result) : bool :=
  (total_mentions r =? m)%Z.

(** The entries for which a detail block is rendered. *)
Definition nonzero (r : Result) : bool := negb (total_mentions r =? 0)%Z.

(** The counts of the remote service are counts. *)
Definition counts_nonnegative (remote : Remote) : Prop :=
  forall url k body, remote url k = Json body -> (0 <= body_total_hits body)%Z.

(** The documents a trace writes. *)
Definition is_write (e : Event) : bool :=
  match e with
  | FileWrite _ _ => true
  | _ => false
  end.

Definition written (t : list Event) : list Event := filter is_write t.

(** ** The scenarios the properties are checked on *)

(** A service that is down: every request times out. *)
Definition down : Remote := fun _ _ => RequestException (lit "Read timed out.").

Definition two_contacts_csv : str :=
  lit "First Name,Last Name,Company,Position
Alice,Smith,Acme,Engineer
Bob,Jones,,
".

Definition alice : Contact :=
  mkContact (lit "Alice") (lit "Smith") (lit "Alice Smith")
            (Some (lit "Acme")) (Some (lit "Engineer")).

Definition bob : Contact :=
  mkContact (lit "Bob") (lit "Jones") (lit "Bob Jones") (Some []) (Some []).

Definition alice_url : str :=
  lit "https://analytics.dugganusa.com/api/v1/search?q=%22Alice%20Smith%22&indexes=epstein_files".

Definition bob_url : str :=
  lit "https://analytics.dugganusa.com/api/v1/search?q=%22Bob%20Jones%22&indexes=epstein_files".

Definition alice_hit : Hit :=
  mkHit (Some (lit "flight log: Alice Smith")) None
        (Some (lit "/dataset 9/EFTA 0001.pdf")).

(** A stub of the service: five hits for Alice, none for anybody else. *)
Definition stub_remote : Remote :=
  fun url _ =>
    if Py.eqb url alice_url
    then Json (mkApiBody true (Some (mkApiData (Some 5%Z) (Some [alice_hit]))))
    else Json (mkApiBody true (Some (mkApiData (Some 0%Z) (Some [])))).

Definition scenario_args : Args :=
  mkArgs (Some (lit "Connections.csv")) (lit "report.html") 1 (2 # 10).

Definition scenario_files : str -> option str :=
  fun path =>
    if Py.eqb path (lit "Connections.csv") then Some two_contacts_csv else None.

Definition alice_result : Result :=
  result_of alice (mkSearchResult 5 [alice_hit] None).

(** The document the scenario writes. *)
Definition scenario_document : str :=
  match html_content [alice_result] with
  | Ok document => document
  | Raise _ => []
  end.

(** An export whose second row stops after the first name, and one whose
    second row has an empty last name. *)
Definition short_row_csv : str :=
  lit "First Name,Last Name,Company
Alice
Bob,Jones,Initech
".

Definition blank_name_csv : str :=
  lit "First Name,Last Name,Company
Alice,  ,Acme
Bob,Jones,Initech
".

(** An export without a header row. *)
Definition headless_csv : str :=
  lit "Notes:
Name,Company
Alice Smith,Acme
".

(** ** Markup *)

(** The characters that delimit tags and attribute values. *)
Definition is_markup (c : char) : bool :=
  (N.eqb c 60 || N.eqb c 62 || N.eqb c 34 || N.eqb c 39)%bool.

Definition markup (s : str) : str := filter is_markup s.

(** A text without such characters. *)
Definition plain (s : str) : Prop := Forall (fun c => is_markup c = false) s.

Definition same_markup (a b : str) : Prop := markup a = markup b.

(** A scan for the opening of a script tag: how much of [<sc] the text read
    so far ends with, or that it has been seen. *)
Inductive scan : Type := Idle | SeenLt | SeenLtS | Found.

Definition scan_step (q : scan) (c : char) : scan :=
  match q with
  | Found => Found
  | Idle => if N.eqb c 60 then SeenLt else Idle
  | SeenLt => if N.eqb c 60 then SeenLt
              else if N.eqb c 115 then SeenLtS else Idle
  | SeenLtS => if N.eqb c 60 then SeenLt
               else if N.eqb c 99 then Found else Idle
  end.

Definition scan_from (q : scan) (s : str) : scan := fold_left scan_step s q.

(** The text holds no [<sc] and does not end inside one. *)
Definition clean (s : str) : Prop := scan_from Idle s = Idle.

(** The entry with every text replaced by a harmless one of the same
    emptiness. *)
Definition blank_text (s : str) : str :=
  match s with
  | [] => []
  | _ => lit "x"
  end.

Definition blank_hit (h : Hit) : Hit :=
  mkHit None None (option_map blank_text (file_path h)).

Definition blank (r : Result) : Result :=
  mkResult [] [] []
           (option_map blank_text (result_company r))
           (option_map blank_text (result_position r))
           (total_mentions r)
           (List.map blank_hit (result_hits r)).

Definition obrien_result : Result :=
  mkResult (lit "O'Brien <script>") (lit "O'Brien") (lit "<script>")
           (Some (lit "<b>Acme</b>")) (Some (lit "CEO & founder"))
           3
           [mkHit (Some (lit "<script>alert(1)</script>")) None
                  (Some (lit "dataset 1/<script>.pdf"))].

Definition obrien_document : str :=
  match html_content [obrien_result] with
  | Ok document => document
  | Raise _ => []
  end.

(** ** The link of a hit, in the words of the specification *)

(** The base URL, without its final [/] when the path brings its own. *)
Definition expected_base (path : str) : str :=
  if startswith (lit "/") path
  then lit "https://www.justice.gov/epstein/files"
  else lit "https://www.justice.gov/epstein/files/".

(** The path as it is displayed: [dataset] respelled. *)
Definition respelled (path : str) : str :=
  replace (lit "dataset") (lit "DataSet") path.

(** ** Well-formed text *)

(** Unicode scalar values: the code points a decoded file can hold. *)
Definition is_scalar (c : char) : bool :=
  ((c <? 55296) || (57343 <? c) && (c <? 1114112))%N.

Definition scalar_text (s : str) : Prop := Forall (fun c => is_scalar c = true) s.

(** ** Counting the events of a lookup *)

Definition is_get (e : Event) : bool :=
  match e with
  | HttpGet _ => true
  | _ => false
  end.

Definition requests_in (t : list Event) : nat := List.length (filter is_get t).

Definition sleeps_in (t : list Event) : nat := List.length (filter is_sleep t).

Definition is_stderr (e : Event) : bool :=
  match e with
  | Stderr _ => true
  | _ => false
  end.

(** The characters [urllib.parse.quote(s, safe='/')] can produce. *)
Definition url_safe (c : char) : bool :=
  Urllib.always_safe c || N.eqb c 47 || N.eqb c 37.

(** A service that fails twice and then answers with five hits. *)
Definition flaky : Remote :=
  fun _ k =>
    if (k <? 2)%nat then RequestException (lit "Connection reset")
    else Json (mkApiBody true (Some (mkApiData (Some 5%Z) None))).

(** ** Contacts as the extractor builds them *)

(** Without white space at either end. *)
Definition trimmed (s : str) : Prop := strip s = s.

Definition well_formed (c : Contact) : Prop :=
  first_name c <> [] /\ last_name c <> []
  /\ trimmed (first_name c) /\ trimmed (last_name c)
  /\ full_name c = first_name c ++ lit " " ++ last_name c.

(** ** Texts made of lines *)

(** A list of lines as a text: every line is ended by a line feed. *)
Definition unlines (lines : list str) : str :=
  List.concat (List.map (fun l => l ++ [nl]) lines).


(** ** Writing an export *)

Definition comma : char := 44%N.

(** A character that needs no quoting in a field. *)
Definition is_field_char (c : char) : bool :=
  negb (N.eqb c 44) && negb (N.eqb c 34) && negb (is_linebreak c).

(** A field that can be written as it is. *)
Definition simple (f : str) : Prop :=
  Forall (fun c => is_field_char c = true) f
  /\ (N.of_nat (List.length f) <= Csv.field_limit)%N.

Definition csv_line (fields : list str) : str := join [comma] fields.

Definition header_fields : list str :=
  [lit "First Name"; lit "Last Name"; lit "Company"; lit "Position"].

Definition text_of (v : option str) : str :=
  match v with
  | Some s => s
  | None => []
  end.

Definition contact_fields (c : Contact) : list str :=
  [first_name c; last_name c; text_of (company c); text_of (position c)].

(** The export of a list of contacts: the header row and one row for each
    contact. *)
Definition export (cs : list Contact) : str :=
  unlines (csv_line header_fields
           :: List.map (fun c => csv_line (contact_fields c)) cs).

Definition exportable (c : Contact) : Prop :=
  well_formed c /\ Forall simple (contact_fields c)
  /\ company c <> None /\ position c <> None.

(** The parser after the characters of an unquoted field. *)
Definition field_read (fs : list str) (f : str) : Csv.reader :=
  match f with
  | [] => Csv.mkReader Csv.START_FIELD fs [] 0
  | _ => Csv.mkReader Csv.IN_FIELD fs (rev f) (N.of_nat (List.length f))
  end.

(** Entries whose texts are well-formed. *)
Definition scalar_hit (h : Hit) : Prop :=
  scalar_text (hit_get (content_preview h))
  /\ scalar_text (hit_get (content h))
  /\ scalar_text (hit_get (file_path h)).

Definition scalar_result (r : Result) : Prop :=
  scalar_text (name r)
  /\ scalar_text (text_of (result_position r))
  /\ scalar_text (text_of (result_company r))
  /\ Forall scalar_hit (result_hits r).

(** The exception that ends a generator, if one does. *)
Fixpoint thrown {A} (g : gen A) : option exn :=
  match g with
  | Stop => None
  | Throw e => Some e
  | Yield _ g' => thrown g'
  end.

(** Console output. *)
Definition is_console (e : Event) : bool :=
  match e with
  | Stdout _ | Stderr _ => true
  | _ => false
  end.



(** ** Looking for [dataset] *)

Definition dataset : str := [100; 97; 116; 97; 115; 101; 116]%N.

(** How much of [dataset] the text read so far ends with: [q] characters
    before the character [c], [advance q c] after it; 7 once the word has
    been seen. *)
Definition advance (q : nat) (c : char) : nat :=
  if (7 <=? q)%nat then q
  else if N.eqb (nth q dataset 0%N) c then S q
  else if N.eqb 100 c then 1%nat
  else 0%nat.

Definition matched (q : nat) (s : str) : nat := fold_left advance s q.

(** The text with Windows line ends: a carriage return before every line
    feed. *)
Definition to_crlf (s : str) : str :=
  flat_map (fun c => if N.eqb c nl then [cr; nl] else [c]) s.

Definition files_directory : str := lit "https://www.justice.gov/epstein/files".

(** ** The rendering, value by value *)

(** The decoding of the five entities [html.escape] writes. *)
Fixpoint unescape_from (skip : nat) (s : str) : str :=
  match s with
  | [] => []
  | c :: s' =>
      match skip with
      | S k => unescape_from k s'
      | O =>
          if N.eqb c 38 then
            if startswith (lit "amp;") s' then 38%N :: unescape_from 4 s'
            else if startswith (lit "lt;") s' then 60%N :: unescape_from 3 s'
            else if startswith (lit "gt;") s' then 62%N :: unescape_from 3 s'
            else if startswith (lit "quot;") s' then 34%N :: unescape_from 5 s'
            else if startswith (lit "#x27;") s' then 39%N :: unescape_from 5 s'
            else c :: unescape_from 0 s'
          else c :: unescape_from 0 s'
      end
  end.

Definition unescape (s : str) : str := unescape_from 0 s.

(** The file path and the URL shown for a hit. *)
Definition shown_link (h : Hit) : str * str :=
  match pdf_link h with
  | Ok link => link
  | Raise _ => ([], [])
  end.

(** What the document holds for a hit: its preview, escaped, and, when the
    hit has a URL, the link with the URL and the file path, both escaped. *)
Definition expected_link (h : Hit) : str :=
  match snd (shown_link h) with
  | [] => []
  | _ => link_open ++ Html.escape (snd (shown_link h)) ++ link_middle
         ++ Html.escape (fst (shown_link h)) ++ link_close
  end.

Definition expected_hit (h : Hit) : str :=
  hit_open ++ Html.escape (preview_of h) ++ hit_middle
  ++ expected_link h ++ hit_close.

(** The position and the company of an entry, escaped, those that are
    given, with [ at ] between them when both are. *)
Definition expected_info (r : Result) : str :=
  match text_of (result_position r), text_of (result_company r) with
  | [], [] => []
  | _, [] => Html.escape (text_of (result_position r))
  | [], _ => Html.escape (text_of (result_company r))
  | _, _ => Html.escape (text_of (result_position r)) ++ lit " at "
            ++ Html.escape (text_of (result_company r))
  end.

Definition expected_hits (r : Result) : str :=
  match result_hits r with
  | [] => no_results
  | hs => List.concat (List.map expected_hit hs)
  end.

(** What the document holds for an entry with mentions. *)
Definition expected_block (r : Result) : str :=
  block_open ++ Html.escape (name r) ++ block_info ++ expected_info r
  ++ block_count ++ format_comma (total_mentions r) ++ block_header_close
  ++ expected_hits r ++ block_close.

(* ================================================================== *)
(** * The monad                                                         *)
(* ================================================================== *)

Lemma bind_ok {A B} (m : M A) (k : A -> M B) n a t n' :
  m n = (Ok a, t, n') -> bind m k n = after t (k a n').
Proof.
  intros H. unfold bind, after, outcome, trace. rewrite H.
  destruct (k a n') as [[r t'] n'']. reflexivity.
Qed.

Lemma bind_raise {A B} (m : M A) (k : A -> M B) n e t n' :
  m n = (Raise e, t, n') -> bind m k n = (Raise e, t, n').
Proof. intros H. unfold bind. rewrite H. reflexivity. Qed.

Lemma Ok_inj {A} (a b : A) : Ok a = Ok b -> a = b.
Proof. intros H. now injection H. Qed.

Lemma after_nil {A} (x : result A * list Event * nat) : after [] x = x.
Proof. destruct x as [[r t] n]. reflexivity. Qed.

Lemma after_after {A} t1 t2 (x : result A * list Event * nat) :
  after t1 (after t2 x) = after (t1 ++ t2) x.
Proof.
  destruct x as [[r t] n]. unfold after, outcome, trace. simpl.
  now rewrite app_assoc.
Qed.

(* ================================================================== *)
(** * Lookup client                                                     *)
(* ================================================================== *)

Lemma attempts_nil remote name url max_retries n :
  attempts remote name url max_retries [] n = (Ok no_hits, [], n).
Proof. reflexivity. Qed.

Lemma attempts_failure remote name url max_retries a range n e :
  remote url n = RequestException e ->
  attempts remote name url max_retries (a :: range) n =
  after [HttpGet url]
    (if (Z.of_nat a <? max_retries - 1)%Z
     then after [Sleep 1] (attempts remote name url max_retries range (S n))
     else (Ok (mkSearchResult 0 [] (Some e)), [Stderr (warning name e)], S n)).
Proof.
  intros H.
  change (attempts remote name url max_retries (a :: range))
    with (bind (http_get remote url) (fun reply =>
            match reply with
            | Json body =>
                if success body
                then ret (mkSearchResult (body_total_hits body) (body_hits body) None)
                else ret no_hits
            | RequestException e =>
                if (Z.of_nat a <? max_retries - 1)%Z
                then sleep 1 ;; attempts remote name url max_retries range
                else print_err (warning name e) ;;
                     ret (mkSearchResult 0 [] (Some e))
            end)).
  erewrite bind_ok by reflexivity. rewrite H.
  destruct (Z.of_nat a <? max_retries - 1)%Z.
  - erewrite bind_ok by reflexivity. reflexivity.
  - erewrite bind_ok by reflexivity. reflexivity.
Qed.

Lemma attempts_reply remote name url max_retries a range n body :
  remote url n = Json body ->
  attempts remote name url max_retries (a :: range) n =
  (Ok (if success body
       then mkSearchResult (body_total_hits body) (body_hits body) None
       else no_hits),
   [HttpGet url], S n).
Proof.
  intros H.
  change (attempts remote name url max_retries (a :: range))
    with (bind (http_get remote url) (fun reply =>
            match reply with
            | Json body =>
                if success body
                then ret (mkSearchResult (body_total_hits body) (body_hits body) None)
                else ret no_hits
            | RequestException e =>
                if (Z.of_nat a <? max_retries - 1)%Z
                then sleep 1 ;; attempts remote name url max_retries range
                else print_err (warning name e) ;;
                     ret (mkSearchResult 0 [] (Some e))
            end)).
  erewrite bind_ok by reflexivity. rewrite H.
  destruct (success body); reflexivity.
Qed.

Lemma attempts_all_fail remote name url max_retries msg :
  forall k a n,
    (a + S k = Z.to_nat max_retries)%nat ->
    (forall j, (j <= k)%nat ->
               remote url (n + j)%nat = RequestException (msg (a + j)%nat)) ->
    attempts remote name url max_retries (seq a (S k)) n =
    (Ok (mkSearchResult 0 [] (Some (msg (a + k)%nat))),
     retries url k ++ [HttpGet url; Stderr (warning name (msg (a + k)%nat))],
     (n + S k)%nat).
Proof.
  induction k as [|k IH]; intros a n Ha Hfail.
  - change (seq a 1) with [a].
    rewrite (attempts_failure remote name url max_retries a [] n (msg a)).
    + replace (Z.of_nat a <? max_retries - 1)%Z with false
        by (symmetry; apply Z.ltb_ge; lia).
      unfold after, outcome, trace. simpl.
      now rewrite Nat.add_0_r, Nat.add_1_r.
    + generalize (Hfail O (Nat.le_0_l _)). now rewrite !Nat.add_0_r.
  - change (seq a (S (S k))) with (a :: seq (S a) (S k)).
    rewrite (attempts_failure remote name url max_retries a _ n (msg a)).
    + replace (Z.of_nat a <? max_retries - 1)%Z with true
        by (symmetry; apply Z.ltb_lt; lia).
      rewrite (IH (S a) (S n)).
      * replace (S a + k)%nat with (a + S k)%nat by lia.
        replace (S n + S k)%nat with (n + S (S k))%nat by lia.
        reflexivity.
      * lia.
      * intros j Hj. replace (S n + j)%nat with (n + S j)%nat by lia.
        replace (S a + j)%nat with (a + S j)%nat by lia.
        apply Hfail. lia.
    + generalize (Hfail O (Nat.le_0_l _)). now rewrite !Nat.add_0_r.
Qed.

Lemma search_epstein_files_url remote name max_retries url n :
  lookup_url name = Ok url ->
  search_epstein_files remote name max_retries n =
  attempts remote name url max_retries (seq 0 (Z.to_nat max_retries)) n.
Proof.
  intros H. unfold search_epstein_files.
  erewrite bind_ok by (unfold lift; rewrite H; reflexivity).
  apply after_nil.
Qed.

(** Every text of scalar values can be encoded, so every such name has a
    request URL. *)
Lemma utf8_char_scalar c :
  is_scalar c = true -> exists b, Urllib.utf8_char c = Ok b.
Proof.
  unfold is_scalar, Urllib.utf8_char. intros H.
  destruct (c <? 128)%N; [eexists; reflexivity|].
  destruct (c <? 2048)%N; [eexists; reflexivity|].
  destruct (c <? 65536)%N eqn:E3.
  - destruct (c <? 55296)%N eqn:E4.
    + apply N.ltb_lt in E4.
      replace (55296 <=? c)%N with false by (symmetry; apply N.leb_gt; exact E4).
      eexists; reflexivity.
    + cbn [orb] in H. apply andb_true_iff in H. destruct H as [H _].
      apply N.ltb_lt in H.
      replace (c <=? 57343)%N with false by (symmetry; apply N.leb_gt; exact H).
      rewrite andb_false_r. eexists; reflexivity.
  - destruct (c <? 1114112)%N eqn:E5; [eexists; reflexivity|].
    destruct (c <? 55296)%N eqn:E4.
    + apply N.ltb_lt in E4. apply N.ltb_ge in E3. lia.
    + cbn [orb] in H. rewrite andb_false_r in H. discriminate.
Qed.

Lemma utf8_scalar s : scalar_text s -> exists b, Urllib.utf8 s = Ok b.
Proof.
  induction 1 as [|c s Hc _ [bs IH]]; [now exists []|].
  destruct (utf8_char_scalar c Hc) as [b Hb].
  exists (b ++ bs). cbn [Urllib.utf8]. now rewrite Hb, IH.
Qed.


Lemma single_lookup remote name url k :
  lookup_url name = Ok url ->
  search_epstein_files remote name 1 k =
  (Ok (result_of_reply (remote url k)),
   HttpGet url :: warning_of_reply name (remote url k), S k).
Proof.
  intros H. rewrite (search_epstein_files_url remote name 1 url k H).
  change (seq 0 (Z.to_nat 1)) with [0%nat].
  destruct (remote url k) as [e|body] eqn:R.
  - rewrite (attempts_failure remote name url 1 0%nat [] k e R). reflexivity.
  - rewrite (attempts_reply remote name url 1 0%nat [] k body R). reflexivity.
Qed.

Lemma lookup_raises remote name max_retries e k :
  lookup_url name = Raise e ->
  search_epstein_files remote name max_retries k = (Raise e, [], k).
Proof.
  intros H. unfold search_epstein_files.
  erewrite bind_raise; [reflexivity|]. unfold lift. now rewrite H.
Qed.

(* ================================================================== *)
(** * The search loop of [main]                                         *)
(* ================================================================== *)

Lemma search_contacts_cons remote args n i c todo results k :
  search_contacts remote args n i (c :: todo) results k =
  match search_epstein_files remote (full_name c) 1 k with
  | (Ok found, t, k') =>
      after ([Stdout (progress i n c)] ++ t
             ++ [Stdout (hits_line (total_hits found))] ++ pause args i n)
            (search_contacts remote args n (S i) todo
               (if (min_mentions args <=? total_hits found)%Z
                then results ++ [result_of c found] else results) k')
  | (Raise e, t, k') => (Raise e, Stdout (progress i n c) :: t, k')
  end.
Proof.
  change (search_contacts remote args n i (c :: todo) results)
    with (print (progress i n c) ;;
          search_result <- search_epstein_files remote (full_name c) 1 ;;
          print (hits_line (total_hits search_result)) ;;
          (if Qpositive (delay args) && (Z.of_nat i <? Z.of_nat n - 1)%Z
           then sleep (delay args) else ret tt) ;;
          search_contacts remote args n (S i) todo
            (if (min_mentions args <=? total_hits search_result)%Z
             then results ++ [result_of c search_result] else results)).
  erewrite bind_ok by reflexivity.
  destruct (search_epstein_files remote (full_name c) 1 k) as [[[found|e] t] k'] eqn:E.
  - erewrite bind_ok by exact E.
    erewrite bind_ok by reflexivity.
    unfold pause.
    destruct (Qpositive (delay args) && (Z.of_nat i <? Z.of_nat n - 1)%Z).
    + erewrite bind_ok by reflexivity. rewrite !after_after.
      f_equal. now rewrite <- !app_assoc.
    + erewrite bind_ok by reflexivity. rewrite !after_after.
      f_equal. now rewrite <- !app_assoc.
  - erewrite bind_raise by exact E. reflexivity.
Qed.

Lemma search_contacts_run remote args n :
  forall todo urls i results k,
    urls_of todo urls ->
    search_contacts remote args n i todo results k =
    (Ok (results ++ kept args todo (founds remote urls k)),
     loop_trace remote args n i todo urls k,
     (k + List.length todo)%nat).
Proof.
  induction todo as [|c todo IH]; intros urls i results k H.
  - inversion H; subst. simpl. unfold ret.
    now rewrite app_nil_r, Nat.add_0_r.
  - inversion H as [|c' u todo' urls' Hu Hrest]; subst.
    rewrite search_contacts_cons, (single_lookup remote _ _ k Hu).
    rewrite (IH urls' (S i) _ (S k) Hrest).
    unfold after, outcome, trace. cbn [fst snd].
    f_equal; [f_equal|].
    + f_equal. cbn [founds kept].
      destruct (min_mentions args <=? total_hits (result_of_reply (remote u k)))%Z.
      * now rewrite <- app_assoc.
      * reflexivity.
    + cbn [loop_trace]. cbn [app]. now rewrite <- !app_assoc.
    + cbn [List.length]. lia.
Qed.

Lemma search_contacts_completes remote args n :
  forall todo i results k rs t k',
    search_contacts remote args n i todo results k = (Ok rs, t, k') ->
    exists urls, urls_of todo urls.
Proof.
  induction todo as [|c todo IH]; intros i results k rs t k' H.
  - exists []. constructor.
  - rewrite search_contacts_cons in H.
    destruct (lookup_url (full_name c)) as [u|e] eqn:Hu.
    + rewrite (single_lookup remote _ _ k Hu) in H.
      match type of H with
      | after _ ?x = _ => destruct x as [[r' t'] k''] eqn:E
      end.
      unfold after, outcome, trace in H. cbn [fst snd] in H.
      injection H as -> _ _.
      destruct (IH _ _ _ _ _ _ E) as [urls Hurls].
      exists (u :: urls). now constructor.
    + rewrite (lookup_raises remote _ 1 _ k Hu) in H. discriminate.
Qed.

Lemma pause_last args n i :
  (S i = n)%nat -> pause args i n = [].
Proof.
  intros <-. unfold pause.
  replace (Z.of_nat i <? Z.of_nat (S i) - 1)%Z with false
    by (symmetry; apply Z.ltb_ge; lia).
  now rewrite andb_false_r.
Qed.

Lemma pause_between args n i :
  Qpositive (delay args) = true -> (S i < n)%nat ->
  pause args i n = [Sleep (delay args)].
Proof.
  intros Hd Hi. unfold pause. rewrite Hd.
  replace (Z.of_nat i <? Z.of_nat n - 1)%Z with true
    by (symmetry; apply Z.ltb_lt; lia).
  reflexivity.
Qed.

Lemma network_warning name reply :
  network_events (warning_of_reply name reply) = [].
Proof. now destruct reply. Qed.

Lemma network_loop_trace remote args n :
  Qpositive (delay args) = true ->
  forall todo urls i k,
    (i + List.length todo = n)%nat ->
    List.length urls = List.length todo ->
    network_events (loop_trace remote args n i todo urls k) =
    intersperse (Sleep (delay args)) (List.map HttpGet urls).
Proof.
  intros Hd. induction todo as [|c todo IH]; intros urls i k Hn Hlen.
  - destruct urls; [reflexivity | discriminate].
  - destruct urls as [|u urls]; [discriminate|].
    cbn [loop_trace]. unfold network_events.
    rewrite !filter_app. fold (network_events (warning_of_reply (full_name c) (remote u k))).
    rewrite network_warning.
    fold (network_events (loop_trace remote args n (S i) todo urls (S k))).
    cbn [List.length] in Hn, Hlen.
    rewrite (IH urls (S i) (S k)) by lia.
    destruct todo as [|c' todo].
    + destruct urls; [|discriminate].
      rewrite pause_last by (cbn [List.length] in Hn; lia). reflexivity.
    + destruct urls as [|u' urls]; [discriminate|].
      rewrite pause_between by (cbn [List.length] in Hn; lia || assumption).
      reflexivity.
Qed.

Lemma sleeps_of_network t :
  filter is_sleep t = filter is_sleep (network_events t).
Proof.
  unfold network_events. induction t as [|e t IH]; [reflexivity|].
  destruct e; cbn; now rewrite ?IH.
Qed.

Lemma sleeps_interspersed d urls :
  List.length (filter is_sleep (intersperse (Sleep d) (List.map HttpGet urls)))
  = (List.length urls - 1)%nat.
Proof.
  induction urls as [|u urls IH]; [reflexivity|].
  destruct urls as [|u' urls]; [reflexivity|].
  change (intersperse (Sleep d) (List.map HttpGet (u :: u' :: urls)))
    with (HttpGet u :: Sleep d
          :: intersperse (Sleep d) (List.map HttpGet (u' :: urls))).
  cbn [filter is_sleep List.length]. rewrite IH. cbn [List.length]. lia.
Qed.

Lemma last_interspersed d urls u0 :
  urls <> [] ->
  last (intersperse (Sleep d) (List.map HttpGet urls)) (Sleep d)
  = HttpGet (last urls u0).
Proof.
  induction urls as [|u urls IH]; [congruence|]. intros _.
  destruct urls as [|u' urls]; [reflexivity|].
  change (intersperse (Sleep d) (List.map HttpGet (u :: u' :: urls)))
    with (HttpGet u :: Sleep d
          :: intersperse (Sleep d) (List.map HttpGet (u' :: urls))).
  change (last (u :: u' :: urls) u0) with (last (u' :: urls) u0).
  rewrite <- IH by discriminate.
  destruct (intersperse (Sleep d) (List.map HttpGet (u' :: urls))) eqn:E.
  - destruct urls; discriminate.
  - reflexivity.
Qed.

(* ================================================================== *)
(** * Sorting                                                           *)
(* ================================================================== *)

Lemma insert_desc_perm x l : Permutation (x :: l) (insert_desc x l).
Proof.
  induction l as [|y l IH]; [reflexivity|].
  cbn [insert_desc]. destruct (total_mentions x <? total_mentions y)%Z.
  - rewrite perm_swap. now constructor.
  - reflexivity.
Qed.

Lemma sort_by_mentions_perm l : Permutation l (sort_by_mentions l).
Proof.
  induction l as [|x l IH]; [reflexivity|].
  cbn [sort_by_mentions fold_right]. fold (sort_by_mentions l).
  rewrite <- insert_desc_perm. now constructor.
Qed.

Lemma insert_desc_sorted x l :
  StronglySorted by_mentions_desc l ->
  StronglySorted by_mentions_desc (insert_desc x l).
Proof.
  induction 1 as [|y l Hs IH Hy]; cbn [insert_desc].
  - repeat constructor.
  - destruct (total_mentions x <? total_mentions y)%Z eqn:E.
    + constructor; [exact IH|].
      apply (Permutation_Forall (insert_desc_perm x l)).
      constructor; [|exact Hy].
      apply Z.ltb_lt in E. unfold by_mentions_desc. lia.
    + apply Z.ltb_ge in E.
      constructor; [now constructor|].
      constructor; [exact E|].
      eapply Forall_impl; [|exact Hy].
      unfold by_mentions_desc. intros; lia.
Qed.

Lemma sort_by_mentions_sorted l :
  StronglySorted by_mentions_desc (sort_by_mentions l).
Proof.
  induction l as [|x l IH]; [constructor|].
  cbn [sort_by_mentions fold_right]. now apply insert_desc_sorted.
Qed.

Lemma insert_desc_stable m x l :
  filter (with_mentions m) (insert_desc x l) = filter (with_mentions m) (x :: l).
Proof.
  induction l as [|y l IH]; [reflexivity|].
  cbn [insert_desc]. destruct (total_mentions x <? total_mentions y)%Z eqn:E.
  - cbn [filter] in *. rewrite IH. unfold with_mentions.
    apply Z.ltb_lt in E.
    destruct (total_mentions x =? m)%Z eqn:Ex;
      destruct (total_mentions y =? m)%Z eqn:Ey; try reflexivity.
    apply Z.eqb_eq in Ex, Ey. lia.
  - reflexivity.
Qed.

Lemma sort_by_mentions_stable m l :
  filter (with_mentions m) (sort_by_mentions l) = filter (with_mentions m) l.
Proof.
  induction l as [|x l IH]; [reflexivity|].
  cbn [sort_by_mentions fold_right]. fold (sort_by_mentions l).
  rewrite insert_desc_stable. cbn [filter]. now rewrite IH.
Qed.

(* ================================================================== *)
(** * What the loop keeps                                               *)
(* ================================================================== *)

Lemma founds_length remote urls k :
  List.length (founds remote urls k) = List.length urls.
Proof.
  revert k. induction urls as [|u urls IH]; intros k; [reflexivity|].
  cbn [founds List.length]. now rewrite IH.
Qed.

Lemma kept_threshold args todo fs :
  Forall (fun r => (min_mentions args <= total_mentions r)%Z) (kept args todo fs).
Proof.
  revert fs. induction todo as [|c todo IH]; intros fs; [constructor|].
  destruct fs as [|f fs]; [constructor|].
  cbn [kept]. apply Forall_app. split; [|apply IH].
  destruct (min_mentions args <=? total_hits f)%Z eqn:E; constructor.
  - apply Z.leb_le in E. exact E.
  - constructor.
Qed.

Lemma result_of_reply_nonneg remote url k :
  counts_nonnegative remote ->
  (0 <= total_hits (result_of_reply (remote url k)))%Z.
Proof.
  intros H. destruct (remote url k) as [e|body] eqn:R; cbn; [lia|].
  destruct (success body); cbn; [|lia]. exact (H _ _ _ R).
Qed.

Lemma founds_nonneg remote urls k :
  counts_nonnegative remote ->
  Forall (fun f => (0 <= total_hits f)%Z) (founds remote urls k).
Proof.
  intros H. revert k. induction urls as [|u urls IH]; intros k; constructor.
  - now apply result_of_reply_nonneg.
  - apply IH.
Qed.

Lemma kept_nonneg args todo fs :
  Forall (fun f => (0 <= total_hits f)%Z) fs ->
  Forall (fun r => (0 <= total_mentions r)%Z) (kept args todo fs).
Proof.
  revert fs. induction todo as [|c todo IH]; intros fs H; [constructor|].
  destruct fs as [|f fs]; [constructor|]. inversion H; subst.
  cbn [kept]. apply Forall_app. split; [|now apply IH].
  destruct (min_mentions args <=? total_hits f)%Z; constructor; [assumption|constructor].
Qed.

(* ================================================================== *)
(** * What [main] writes                                                *)
(* ================================================================== *)

Lemma written_app t1 t2 : written (t1 ++ t2) = written t1 ++ written t2.
Proof. apply filter_app. Qed.

Lemma written_after {A} t (x : result A * list Event * nat) :
  written (trace (after t x)) = written t ++ written (trace x).
Proof. unfold after. cbn. apply written_app. Qed.

Lemma written_pause args i n : written (pause args i n) = [].
Proof. unfold pause. now destruct (_ && _). Qed.

Lemma written_warning name reply : written (warning_of_reply name reply) = [].
Proof. now destruct reply. Qed.

Lemma search_contacts_writes_nothing remote args n :
  forall todo i results k,
    written (trace (search_contacts remote args n i todo results k)) = [].
Proof.
  induction todo as [|c todo IH]; intros i results k; [reflexivity|].
  rewrite search_contacts_cons.
  destruct (lookup_url (full_name c)) as [u|e] eqn:Hu.
  - rewrite (single_lookup remote _ _ k Hu).
    rewrite written_after, IH, !written_app, written_pause.
    unfold written at 2. cbn [filter is_write app].
    fold (written (warning_of_reply (full_name c) (remote u k))).
    rewrite written_warning. reflexivity.
  - rewrite (lookup_raises remote _ 1 _ k Hu). reflexivity.
Qed.

Lemma print_top_run rs k :
  print_top rs k =
  (Ok tt,
   List.map (fun r => Stdout (lit "  " ++ format_comma6 (total_mentions r)
                              ++ lit " - " ++ name r ++ [nl])) rs,
   k).
Proof.
  induction rs as [|r rs IH]; [reflexivity|].
  change (print_top (r :: rs))
    with (print (lit "  " ++ format_comma6 (total_mentions r) ++ lit " - "
                 ++ name r ++ [nl]) ;; print_top rs).
  erewrite bind_ok by reflexivity. rewrite IH. reflexivity.
Qed.

Lemma written_stdout {A} (f : A -> str) l :
  written (List.map (fun a => Stdout (f a)) l) = [].
Proof. induction l; [reflexivity | exact IHl]. Qed.

Lemma print_summary_writes_nothing n rs out k :
  written (trace (print_summary n rs out k)) = []
  /\ outcome (print_summary n rs out k) = Ok tt.
Proof.
  unfold print_summary.
  repeat (erewrite bind_ok by reflexivity; rewrite ?written_after).
  destruct (filter has_mentions rs) as [|r l].
  - repeat (erewrite bind_ok by reflexivity; rewrite ?written_after).
    split; reflexivity.
  - erewrite bind_ok.
    2:{ erewrite bind_ok by reflexivity. rewrite print_top_run. reflexivity. }
    erewrite !written_after. cbn [written filter is_write app trace after outcome fst snd].
    split; [|reflexivity].
    change (filter is_write) with written. now rewrite written_stdout.
Qed.

Lemma generate_html_report_run results out k :
  generate_html_report results out k =
  match html_content results with
  | Raise e => (Raise e, [], k)
  | Ok document =>
      match Urllib.utf8 document with
      | Raise e => (Raise e, [OpenWrite out], k)
      | Ok _ => (Ok tt, [OpenWrite out; FileWrite out document], k)
      end
  end.
Proof.
  unfold generate_html_report, bind, lift, emit.
  destruct (html_content results) as [document|e]; [|reflexivity].
  destruct (Urllib.utf8 document) as [b|e]; reflexivity.
Qed.

(** The only document [main] writes is the rendering of the sorted list of
    the entries kept by the loop. *)
Lemma search_and_report_written remote args parsed k path document :
  In (FileWrite path document) (trace (search_and_report remote args parsed k)) ->
  exists urls,
    urls_of parsed urls /\ path = output args /\
    html_content (sort_by_mentions (kept args parsed (founds remote urls k)))
    = Ok document.
Proof.
  intros Hin.
  assert (Hw : In (FileWrite path document)
                  (written (trace (search_and_report remote args parsed k))))
    by (apply filter_In; split; [exact Hin | reflexivity]).
  clear Hin. unfold search_and_report in Hw.
  erewrite bind_ok in Hw by reflexivity. rewrite written_after in Hw.
  destruct (search_contacts remote args (List.length parsed) 0 parsed [] k)
    as [[[rs|e] t] k'] eqn:E.
  - destruct (search_contacts_completes _ _ _ _ _ _ _ _ _ _ E) as [urls Hurls].
    pose proof (search_contacts_writes_nothing remote args (List.length parsed)
                  parsed 0 [] k) as Hnone.
    rewrite E in Hnone. cbn [trace fst snd] in Hnone.
    pose proof E as Erun.
    rewrite (search_contacts_run remote args _ parsed urls 0%nat [] k Hurls) in E.
    injection E as Ers _ _. cbn [app] in Ers.
    erewrite bind_ok in Hw by exact Erun.
    rewrite written_after in Hw. cbn [trace fst snd] in Hw. rewrite Hnone in Hw.
    erewrite bind_ok in Hw by reflexivity. rewrite written_after in Hw.
    exists urls. split; [exact Hurls|].
    rewrite Ers.
    unfold bind in Hw. rewrite generate_html_report_run in Hw.
    destruct (html_content (sort_by_mentions rs)) as [doc'|e] eqn:Hh;
      [|destruct Hw].
    destruct (Urllib.utf8 doc') as [b|e] eqn:U; [|destruct Hw].
    destruct (print_summary_writes_nothing (List.length parsed)
                (sort_by_mentions rs) (output args) k') as [Hs _].
    destruct (print_summary _ _ _ _) as [[r' t'] k''].
    cbn [trace fst snd] in Hs, Hw. rewrite written_app, Hs in Hw.
    cbn in Hw. destruct Hw as [Hw|[]]. injection Hw as <- <-. now split.
  - erewrite bind_raise in Hw by exact E.
    pose proof (search_contacts_writes_nothing remote args (List.length parsed)
                  parsed 0 [] k) as Hnone.
    rewrite E in Hnone. cbn [trace fst snd] in Hnone, Hw.
    rewrite Hnone in Hw. destruct Hw.
Qed.

(* ================================================================== *)
(** * Rendering of the list                                             *)
(* ================================================================== *)

Lemma render_results_blocks results :
  forall body,
    render_results results = Ok body ->
    exists blocks,
      Forall2 (fun r block => render_block r = Ok block)
              (filter nonzero results) blocks
      /\ body = List.concat blocks.
Proof.
  induction results as [|r results IH]; intros body H.
  - injection H as <-. exists []. split; [constructor | reflexivity].
  - cbn [render_results] in H.
    destruct (render_result r) as [a|e] eqn:Hr; [|discriminate].
    destruct (render_results results) as [b|e] eqn:Hrs; [|discriminate].
    cbn [rbind] in H. apply Ok_inj in H. subst body.
    destruct (IH b eq_refl) as (blocks & Hb & ->).
    unfold render_result in Hr. cbn [filter]. unfold nonzero at 1.
    destruct (total_mentions r =? 0)%Z; cbn [negb].
    + injection Hr as <-. exists blocks. now split.
    + exists (a :: blocks). split; [now constructor | reflexivity].
Qed.

Lemma html_content_inv results document :
  html_content results = Ok document ->
  exists body, render_results results = Ok body
               /\ document = summary results ++ body ++ footer.
Proof.
  unfold html_content. destruct (render_results results) as [body|e]; [|discriminate].
  cbn [rbind]. intros H. injection H as <-. now exists body.
Qed.

(** A written document is found among the written events of a trace. *)
Local Ltac find_written :=
  apply (fun h => proj1 (proj1 (filter_In is_write _ _) h));
  vm_compute; left; reflexivity.

(* ================================================================== *)
(** * The properties of the specification                               *)
(* ================================================================== *)

(** C2. Two-tier filtering.  Whatever the contacts, the service and the
    threshold, the document [main] writes is the rendering of a list of
    entries that all reach the threshold (the first filter, applied before
    rendering); its detail blocks are those of the entries whose count is
    not zero (the second filter, inside the renderer), an entry without
    mentions renders to nothing, and, the counts of the service being
    non-negative, every block belongs to an entry with at least one
    mention. *)
Theorem two_tier_filtering remote args parsed k path document :
  In (FileWrite path document) (trace (search_and_report remote args parsed k)) ->
  exists results blocks,
    html_content results = Ok document
    /\ Forall (fun r => (min_mentions args <= total_mentions r)%Z) results
    /\ Forall2 (fun r block => render_block r = Ok block)
               (filter nonzero results) blocks
    /\ document = summary results ++ List.concat blocks ++ footer
    /\ (forall r, total_mentions r = 0%Z -> render_result r = Ok [])
    /\ (counts_nonnegative remote ->
        Forall (fun r => (1 <= total_mentions r)%Z) (filter nonzero results)).
Proof.
  intros Hin.
  destruct (search_and_report_written _ _ _ _ _ _ Hin) as (urls & Hurls & -> & Hdoc).
  set (collected := kept args parsed (founds remote urls k)) in *.
  destruct (html_content_inv _ _ Hdoc) as (body & Hbody & ->).
  destruct (render_results_blocks _ _ Hbody) as (blocks & Hblocks & ->).
  exists (sort_by_mentions collected), blocks.
  repeat split; try assumption.
  - apply (Permutation_Forall (sort_by_mentions_perm collected)).
    apply kept_threshold.
  - intros r Hr. unfold render_result. now rewrite Hr.
  - intros Hnn. apply Forall_forall. intros r Hr.
    apply filter_In in Hr. destruct Hr as [Hr Hnz].
    assert (H0 : Forall (fun r => (0 <= total_mentions r)%Z)
                        (sort_by_mentions collected)).
    { apply (Permutation_Forall (sort_by_mentions_perm collected)).
      apply kept_nonneg, founds_nonneg, Hnn. }
    apply (proj1 (Forall_forall _ _) H0) in Hr.
    unfold nonzero in Hnz. apply negb_true_iff, Z.eqb_neq in Hnz. lia.
Qed.

Lemma two_tier_filtering_witness :
  In (FileWrite (lit "report.html") scenario_document)
     (trace (search_and_report stub_remote scenario_args [alice; bob] 0))
  /\ exists results blocks,
       html_content results = Ok scenario_document
       /\ Forall (fun r => (min_mentions scenario_args <= total_mentions r)%Z) results
       /\ Forall2 (fun r block => render_block r = Ok block)
                  (filter nonzero results) blocks
       /\ scenario_document = summary results ++ List.concat blocks ++ footer
       /\ (forall r, total_mentions r = 0%Z -> render_result r = Ok [])
       /\ (counts_nonnegative stub_remote ->
           Forall (fun r => (1 <= total_mentions r)%Z) (filter nonzero results)).
Proof.
  assert (H : In (FileWrite (lit "report.html") scenario_document)
                 (trace (search_and_report stub_remote scenario_args [alice; bob] 0)))
    by find_written.
  split; [exact H|].
  exact (two_tier_filtering stub_remote scenario_args [alice; bob] 0
           (lit "report.html") scenario_document H).
Defined.

(** C3. Order of the report.  The sort puts every list of entries in
    descending order of hit count, keeps all of them, and leaves entries
    with the same count in the order they had; and the document [main]
    writes is the rendering of the sorted list of the entries kept, which
    the loop collects in the order of the contacts. *)
Theorem report_sorted_stable :
  (forall l,
      StronglySorted by_mentions_desc (sort_by_mentions l)
      /\ Permutation l (sort_by_mentions l)
      /\ forall m, filter (with_mentions m) (sort_by_mentions l)
                   = filter (with_mentions m) l)
  /\ (forall remote args parsed k path document,
        In (FileWrite path document)
           (trace (search_and_report remote args parsed k)) ->
        exists fs,
          List.length fs = List.length parsed
          /\ html_content (sort_by_mentions (kept args parsed fs)) = Ok document).
Proof.
  split.
  - intros l. split; [apply sort_by_mentions_sorted|].
    split; [apply sort_by_mentions_perm|].
    intros m. apply sort_by_mentions_stable.
  - intros remote args parsed k path document Hin.
    destruct (search_and_report_written _ _ _ _ _ _ Hin) as (urls & Hurls & _ & Hdoc).
    exists (founds remote urls k). split; [|exact Hdoc].
    rewrite founds_length. symmetry. exact (Forall2_length Hurls).
Qed.

Lemma report_sorted_stable_witness :
  In (FileWrite (lit "report.html") scenario_document)
     (trace (search_and_report stub_remote scenario_args [alice; bob] 0))
  /\ exists fs,
       List.length fs = 2%nat
       /\ html_content (sort_by_mentions (kept scenario_args [alice; bob] fs))
          = Ok scenario_document.
Proof.
  assert (H : In (FileWrite (lit "report.html") scenario_document)
                 (trace (search_and_report stub_remote scenario_args [alice; bob] 0)))
    by find_written.
  split; [exact H|].
  exact (proj2 report_sorted_stable stub_remote scenario_args [alice; bob] 0%nat
           (lit "report.html") scenario_document H).
Defined.

(** C4. A lookup whose attempts all fail.  When the name has a request URL
    and each of the [max_retries >= 1] attempts meets a transport failure,
    the lookup returns (it does not raise) a result with no hits and the
    message of the last failure as its error, after one request per attempt,
    a pause of one second between attempts and a warning on the error
    stream.  In [main], where the threshold is positive, the loop then goes
    on with the next contact and the list of kept entries is unchanged. *)
Theorem exhausted_lookup_degrades :
  (forall remote name url max_retries msg n,
      lookup_url name = Ok url ->
      (1 <= max_retries)%Z ->
      (forall j, (j < Z.to_nat max_retries)%nat ->
                 remote url (n + j)%nat = RequestException (msg j)) ->
      search_epstein_files remote name max_retries n =
      (Ok (mkSearchResult 0 [] (Some (msg (Z.to_nat max_retries - 1)%nat))),
       retries url (Z.to_nat max_retries - 1)
       ++ [HttpGet url;
           Stderr (warning name (msg (Z.to_nat max_retries - 1)%nat))],
       (n + Z.to_nat max_retries)%nat))
  /\ (forall remote args n i c todo results k url e,
         lookup_url (full_name c) = Ok url ->
         remote url k = RequestException e ->
         (0 < min_mentions args)%Z ->
         search_contacts remote args n i (c :: todo) results k =
         after ([Stdout (progress i n c); HttpGet url;
                 Stderr (warning (full_name c) e); Stdout (hits_line 0)]
                ++ pause args i n)
               (search_contacts remote args n (S i) todo results (S k))).
Proof.
  split.
  - intros remote name url max_retries msg n Hurl Hmax Hfail.
    rewrite (search_epstein_files_url remote name max_retries url n Hurl).
    destruct (Z.to_nat max_retries) as [|m] eqn:Em; [lia|].
    replace (S m - 1)%nat with m by lia.
    apply (attempts_all_fail remote name url max_retries msg m 0 n).
    + now rewrite Em.
    + intros j Hj. apply Hfail. lia.
  - intros remote args n i c todo results k url e Hurl Hfail Hmin.
    rewrite search_contacts_cons, (single_lookup remote _ _ k Hurl), Hfail.
    cbn [result_of_reply warning_of_reply total_hits].
    replace (min_mentions args <=? 0)%Z with false
      by (symmetry; apply Z.leb_gt; exact Hmin).
    reflexivity.
Qed.

Lemma exhausted_lookup_degrades_witness :
  search_epstein_files down (lit "Bob Jones") 3 0 =
  (Ok (mkSearchResult 0 [] (Some (lit "Read timed out."))),
   retries bob_url 2
   ++ [HttpGet bob_url;
       Stderr (warning (lit "Bob Jones") (lit "Read timed out."))],
   3%nat)
  /\ search_contacts down scenario_args 2 1 [bob] [alice_result] 1 =
     after ([Stdout (progress 1 2 bob); HttpGet bob_url;
             Stderr (warning (lit "Bob Jones") (lit "Read timed out."));
             Stdout (hits_line 0)]
            ++ pause scenario_args 1 2)
           (search_contacts down scenario_args 2 2 [] [alice_result] 2).
Proof.
  split.
  - apply (proj1 exhausted_lookup_degrades down (lit "Bob Jones") bob_url 3%Z
             (fun _ => lit "Read timed out.") 0%nat).
    + vm_compute. reflexivity.
    + lia.
    + intros j _. reflexivity.
  - apply (proj2 exhausted_lookup_degrades down scenario_args 2%nat 1%nat bob []
             [alice_result] 1%nat bob_url (lit "Read timed out.")).
    + vm_compute. reflexivity.
    + reflexivity.
    + reflexivity.
Defined.

(** C10. No attempt, no error.  With [max_retries = 0] the lookup makes no
    request, whatever the name, and for a name that has a request URL it
    returns a result with no hits and no error; and whenever a lookup
    returns a result that carries an error, [max_retries] was at least
    one. *)
Theorem error_needs_an_attempt :
  (forall remote name n,
      trace (search_epstein_files remote name 0 n) = [])
  /\ (forall remote name url n,
      lookup_url name = Ok url ->
      search_epstein_files remote name 0 n = (Ok (mkSearchResult 0 [] None), [], n))
  /\ (forall remote name max_retries n found t n',
         search_epstein_files remote name max_retries n = (Ok found, t, n') ->
         error found <> None ->
         (1 <= max_retries)%Z).
Proof.
  split; [|split].
  - intros remote name n. destruct (lookup_url name) as [url|e] eqn:Hurl.
    + now rewrite (search_epstein_files_url remote name 0 url n Hurl).
    + now rewrite (lookup_raises remote name 0 e n Hurl).
  - intros remote name url n Hurl.
    now rewrite (search_epstein_files_url remote name 0 url n Hurl).
  - intros remote name max_retries n found t n' Hrun Herr.
    destruct (lookup_url name) as [url|e] eqn:Hurl.
    + rewrite (search_epstein_files_url remote name max_retries url n Hurl) in Hrun.
      destruct (Z.to_nat max_retries) as [|m] eqn:Em; [|lia].
      rewrite attempts_nil in Hrun. injection Hrun as <- _ _.
      now contradiction Herr.
    + rewrite (lookup_raises remote name max_retries e n Hurl) in Hrun.
      discriminate.
Qed.

Lemma error_needs_an_attempt_witness :
  search_epstein_files down (lit "Bob Jones") 0 7 =
  (Ok (mkSearchResult 0 [] None), [], 7%nat)
  /\ (1 <= 1)%Z.
Proof.
  split.
  - apply (proj1 (proj2 error_needs_an_attempt) down (lit "Bob Jones") bob_url 7%nat).
    vm_compute. reflexivity.
  - apply (proj2 (proj2 error_needs_an_attempt) down (lit "Bob Jones") 1%Z 0%nat
             (mkSearchResult 0%Z [] (Some (lit "Read timed out.")))
             [HttpGet bob_url;
              Stderr (warning (lit "Bob Jones") (lit "Read timed out."))]
             1%nat).
    + vm_compute. reflexivity.
    + discriminate.
Defined.

(** C9. The pause between lookups.  For a non-empty list of contacts that
    all have a request URL and a positive delay, the loop completes, and its
    requests and sleeps are the requests of the contacts, in order, with one
    sleep of the configured delay between two consecutive requests: as many
    sleeps as contacts but one (none for a single contact), and nothing but
    a request at the end. *)
Theorem pause_only_between_lookups remote args parsed urls k :
  parsed <> [] ->
  Qpositive (delay args) = true ->
  urls_of parsed urls ->
  let run := search_contacts remote args (List.length parsed) 0 parsed [] k in
  (exists results, outcome run = Ok results)
  /\ network_events (trace run)
     = intersperse (Sleep (delay args)) (List.map HttpGet urls)
  /\ List.length (filter is_sleep (trace run)) = (List.length parsed - 1)%nat
  /\ last (network_events (trace run)) (Sleep (delay args))
     = HttpGet (last urls []).
Proof.
  intros Hne Hd Hurls run. subst run.
  rewrite (search_contacts_run remote args _ parsed urls 0%nat [] k Hurls).
  cbn [outcome trace fst snd].
  pose proof (Forall2_length Hurls) as Hlen.
  assert (Hnet : network_events
                   (loop_trace remote args (List.length parsed) 0 parsed urls k)
                 = intersperse (Sleep (delay args)) (List.map HttpGet urls))
    by (apply network_loop_trace; [exact Hd | reflexivity | now symmetry]).
  split; [eexists; reflexivity|].
  split; [exact Hnet|].
  split.
  - rewrite sleeps_of_network, Hnet, sleeps_interspersed. now rewrite Hlen.
  - rewrite Hnet. apply last_interspersed.
    destruct urls; [|discriminate]. destruct parsed; [congruence|discriminate].
Qed.

Lemma pause_only_between_lookups_witness :
  let run := search_contacts stub_remote scenario_args 2 0 [alice; bob] [] 0 in
  (exists results, outcome run = Ok results)
  /\ network_events (trace run)
     = [HttpGet alice_url; Sleep (2 # 10); HttpGet bob_url]
  /\ List.length (filter is_sleep (trace run)) = 1%nat
  /\ last (network_events (trace run)) (Sleep (2 # 10)) = HttpGet bob_url.
Proof.
  apply (pause_only_between_lookups stub_remote scenario_args [alice; bob]
           [alice_url; bob_url] 0%nat).
  - discriminate.
  - reflexivity.
  - constructor; [vm_compute; reflexivity|].
    constructor; [vm_compute; reflexivity|].
    constructor.
Defined.

(** C5. No header row.  When no line of the file contains both
    [First Name] and [Last Name], the extractor returns the empty list of
    contacts and raises nothing. *)
Theorem no_header_no_contacts decoded :
  (forall line, In line (readlines (open_text decoded)) ->
                contains (lit "First Name") line
                && contains (lit "Last Name") line = false) ->
  parse_linkedin_contacts decoded = Ok [].
Proof.
  intros H. unfold parse_linkedin_contacts.
  assert (E : find_header (readlines (open_text decoded)) = None).
  { induction (readlines (open_text decoded)) as [|line lines IH]; [reflexivity|].
    cbn [find_header]. unfold is_header.
    rewrite (H line (or_introl eq_refl)).
    apply IH. intros l Hl. apply H. now right. }
  now rewrite E.
Qed.

Lemma no_header_no_contacts_witness :
  parse_linkedin_contacts headless_csv = Ok [].
Proof.
  apply (no_header_no_contacts headless_csv).
  apply Forall_forall. vm_compute. repeat constructor.
Defined.

(** C1. The summary of the report, on the two-contact scenario (five hits
    for Alice, none for Bob, threshold 1).  The run succeeds and writes one
    document; that document shows [Total contacts searched: 1], the number
    of entries that reached the threshold, and not [2], the number of
    contacts parsed and searched, which is what the console summary of the
    same run prints under the same label. *)
Theorem report_total_counts_kept_entries :
  let run := main true scenario_files stub_remote scenario_args 0 in
  parse_linkedin_contacts two_contacts_csv = Ok [alice; bob]
  /\ outcome run = Ok tt
  /\ written (trace run) = [FileWrite (lit "report.html") scenario_document]
  /\ contains (lit "<strong>Total contacts searched:</strong> 1<br>")
              scenario_document = true
  /\ contains (lit "<strong>Total contacts searched:</strong> 2<br>")
              scenario_document = false
  /\ contains (lit "<strong>Contacts with mentions:</strong> 1")
              scenario_document = true
  /\ In (Stdout (lit "Total contacts searched: 2" ++ [nl])) (trace run).
Proof.
  cbv zeta.
  split; [vm_compute; reflexivity|].
  split; [vm_compute; reflexivity|].
  split; [vm_compute; reflexivity|].
  split; [vm_compute; reflexivity|].
  split; [vm_compute; reflexivity|].
  split; [vm_compute; reflexivity|].
  vm_compute. repeat (first [left; reflexivity | right]).
Qed.

(** C6. Rows without a name.  A row whose last name is blank is dropped and
    the following rows are read; a row that stops before the last name
    column makes the extractor raise [AttributeError], and no contact at
    all is returned. *)
Theorem short_row_raises :
  parse_linkedin_contacts blank_name_csv
  = Ok [mkContact (lit "Bob") (lit "Jones") (lit "Bob Jones")
                  (Some (lit "Initech")) (Some [])]
  /\ parse_linkedin_contacts short_row_csv = Raise AttributeError.
Proof. split; vm_compute; reflexivity. Qed.

(* ================================================================== *)
(** * Escaping                                                          *)
(* ================================================================== *)

Lemma markup_app a b : markup (a ++ b) = markup a ++ markup b.
Proof. apply filter_app. Qed.

Lemma plain_markup s : plain s -> markup s = [].
Proof.
  induction 1 as [|c s Hc _ IH]; [reflexivity|].
  unfold markup in *. cbn [filter]. now rewrite Hc.
Qed.

Lemma plain_app a b : plain a -> plain b -> plain (a ++ b).
Proof. intros Ha Hb. apply Forall_app. now split. Qed.

Lemma plain_escape_char c : plain (Html.escape_char c).
Proof.
  unfold Html.escape_char.
  destruct (N.eqb c 38) eqn:E1; [vm_compute; repeat constructor|].
  destruct (N.eqb c 60) eqn:E2; [vm_compute; repeat constructor|].
  destruct (N.eqb c 62) eqn:E3; [vm_compute; repeat constructor|].
  destruct (N.eqb c 34) eqn:E4; [vm_compute; repeat constructor|].
  destruct (N.eqb c 39) eqn:E5; [vm_compute; repeat constructor|].
  constructor; [|constructor].
  unfold is_markup. now rewrite E2, E3, E4, E5.
Qed.

Lemma plain_escape s : plain (Html.escape s).
Proof.
  induction s as [|c s IH]; [constructor|].
  unfold Html.escape. cbn [flat_map].
  apply plain_app; [apply plain_escape_char | exact IH].
Qed.

Lemma plain_digits n : plain (digits n).
Proof.
  unfold digits. induction (N.to_uint n); cbn [digits_of_uint];
    constructor; (reflexivity || assumption).
Qed.

Lemma plain_sign z : plain (sign z).
Proof. destruct z; repeat constructor. Qed.

Lemma plain_group_rev ds : plain ds -> forall k, plain (group_rev k ds).
Proof.
  induction 1 as [|d ds Hd _ IH]; intros k; [constructor|].
  cbn [group_rev].
  destruct k as [|[|[|[|k]]]];
    repeat (constructor; [reflexivity || exact Hd|]); apply IH.
Qed.

Lemma plain_rev s : plain s -> plain (rev s).
Proof. apply Forall_rev. Qed.

Lemma plain_str_of_int z : plain (str_of_int z).
Proof. apply plain_app; [apply plain_sign | apply plain_digits]. Qed.

Lemma plain_format_comma z : plain (format_comma z).
Proof.
  apply plain_app; [apply plain_sign|].
  apply plain_rev, plain_group_rev, plain_rev, plain_digits.
Qed.

Lemma plain_join sep parts :
  plain sep -> Forall plain parts -> plain (join sep parts).
Proof.
  intros Hs. induction 1 as [|p parts Hp Hps IH]; [constructor|].
  cbn [join]. destruct parts as [|p' parts]; [exact Hp|].
  apply plain_app; [exact Hp|]. apply plain_app; [exact Hs | exact IH].
Qed.

Lemma plain_escaped_if_set v : Forall plain (escaped_if_set v).
Proof.
  destruct v as [s|]; [|constructor]. cbn [escaped_if_set].
  destruct (truthy s); repeat constructor. apply plain_escape.
Qed.

Lemma plain_contact_info_text r : plain (contact_info_text r).
Proof.
  unfold contact_info_text.
  assert (H : Forall plain (contact_info r))
    by (apply Forall_app; split; apply plain_escaped_if_set).
  destruct (contact_info r) as [|p l] eqn:E; [constructor|].
  apply plain_join; [vm_compute; repeat constructor | exact H].
Qed.

(** ** No script tag *)

Lemma scan_app q a b : scan_from q (a ++ b) = scan_from (scan_from q a) b.
Proof. apply fold_left_app. Qed.

Lemma clean_nil : clean [].
Proof. reflexivity. Qed.

Lemma clean_app a b : clean a -> clean b -> clean (a ++ b).
Proof. unfold clean. intros Ha Hb. now rewrite scan_app, Ha. Qed.

Lemma plain_clean s : plain s -> clean s.
Proof.
  unfold clean. induction 1 as [|c s Hc _ IH]; [reflexivity|].
  cbn [scan_from fold_left scan_step].
  unfold is_markup in Hc. destruct (N.eqb c 60); [discriminate|]. exact IH.
Qed.

Lemma scan_found s : scan_from Found s = Found.
Proof. induction s as [|c s IH]; [reflexivity | exact IH]. Qed.

Lemma clean_no_script s :
  clean s -> forall prefix suffix, s <> prefix ++ lit "<script" ++ suffix.
Proof.
  unfold clean. intros H prefix suffix ->.
  rewrite !scan_app in H.
  assert (E : scan_from (scan_from Idle prefix) (lit "<script") = Found)
    by (destruct (scan_from Idle prefix); reflexivity).
  rewrite E, scan_found in H. discriminate.
Qed.

Lemma clean_head_open : clean head_open. Proof. vm_compute. reflexivity. Qed.
Lemma clean_head_middle : clean head_middle. Proof. vm_compute. reflexivity. Qed.
Lemma clean_head_close : clean head_close. Proof. vm_compute. reflexivity. Qed.
Lemma clean_block_open : clean block_open. Proof. vm_compute. reflexivity. Qed.
Lemma clean_block_info : clean block_info. Proof. vm_compute. reflexivity. Qed.
Lemma clean_block_count : clean block_count. Proof. vm_compute. reflexivity. Qed.
Lemma clean_block_header_close : clean block_header_close. Proof. vm_compute. reflexivity. Qed.
Lemma clean_hit_open : clean hit_open. Proof. vm_compute. reflexivity. Qed.
Lemma clean_hit_middle : clean hit_middle. Proof. vm_compute. reflexivity. Qed.
Lemma clean_link_open : clean link_open. Proof. vm_compute. reflexivity. Qed.
Lemma clean_link_middle : clean link_middle. Proof. vm_compute. reflexivity. Qed.
Lemma clean_link_close : clean link_close. Proof. vm_compute. reflexivity. Qed.
Lemma clean_hit_close : clean hit_close. Proof. vm_compute. reflexivity. Qed.
Lemma clean_no_results : clean no_results. Proof. vm_compute. reflexivity. Qed.
Lemma clean_block_close : clean block_close. Proof. vm_compute. reflexivity. Qed.
Lemma clean_footer : clean footer. Proof. vm_compute. reflexivity. Qed.

Lemma clean_escape s : clean (Html.escape s).
Proof. apply plain_clean, plain_escape. Qed.

(** Splits a concatenation into its pieces and closes the pieces that are
    parts of the template, escaped texts or known to be clean. *)
Local Ltac clean_pieces :=
  repeat match goal with
  | |- clean (_ ++ _) => apply clean_app
  | |- clean [] => exact clean_nil
  | |- clean (Html.escape _) => apply clean_escape
  | H : clean ?s |- clean ?s => exact H
  | |- clean head_open => exact clean_head_open
  | |- clean head_middle => exact clean_head_middle
  | |- clean head_close => exact clean_head_close
  | |- clean block_open => exact clean_block_open
  | |- clean block_info => exact clean_block_info
  | |- clean block_count => exact clean_block_count
  | |- clean block_header_close => exact clean_block_header_close
  | |- clean hit_open => exact clean_hit_open
  | |- clean hit_middle => exact clean_hit_middle
  | |- clean link_open => exact clean_link_open
  | |- clean link_middle => exact clean_link_middle
  | |- clean link_close => exact clean_link_close
  | |- clean hit_close => exact clean_hit_close
  | |- clean no_results => exact clean_no_results
  | |- clean block_close => exact clean_block_close
  | |- clean footer => exact clean_footer
  end.

Lemma clean_render_link fp url : clean (render_link fp url).
Proof. unfold render_link. destruct (truthy url); clean_pieces. Qed.

Lemma clean_render_hit h a : render_hit h = Ok a -> clean a.
Proof.
  unfold render_hit. destruct (pdf_link h) as [link|e]; [|discriminate].
  cbn [rbind]. intros H. apply Ok_inj in H; subst a.
  pose proof (clean_render_link (fst link) (snd link)).
  clean_pieces.
Qed.

Lemma clean_render_hits hs : forall a, render_hits hs = Ok a -> clean a.
Proof.
  induction hs as [|h hs IH]; intros a H.
  - apply Ok_inj in H; subst a. apply clean_nil.
  - cbn [render_hits] in H.
    destruct (render_hit h) as [x|e] eqn:Hx; [|discriminate].
    destruct (render_hits hs) as [y|e] eqn:Hy; [|discriminate].
    cbn [rbind] in H. apply Ok_inj in H; subst a.
    apply clean_app; [exact (clean_render_hit h x Hx) | exact (IH y eq_refl)].
Qed.

Lemma clean_block_header r : clean (block_header r).
Proof.
  unfold block_header.
  pose proof (plain_clean _ (plain_contact_info_text r)).
  pose proof (plain_clean _ (plain_format_comma (total_mentions r))).
  clean_pieces.
Qed.

Lemma clean_render_block r a : render_block r = Ok a -> clean a.
Proof.
  unfold render_block. intros H.
  assert (Hb : exists body,
             match result_hits r with
             | [] => Ok no_results
             | _ :: _ => render_hits (result_hits r)
             end = Ok body /\ a = block_header r ++ body ++ block_close).
  { destruct (result_hits r) as [|h hs]; cbn [rbind] in H.
    - apply Ok_inj in H; subst a. now exists no_results.
    - destruct (render_hits (h :: hs)) as [body|e]; [|discriminate].
      cbn [rbind] in H. apply Ok_inj in H; subst a. now exists body. }
  destruct Hb as (body & Hbody & ->).
  assert (clean body).
  { destruct (result_hits r) as [|h hs].
    - apply Ok_inj in Hbody; subst body. apply clean_no_results.
    - exact (clean_render_hits _ _ Hbody). }
  pose proof (clean_block_header r). clean_pieces.
Qed.

Lemma clean_render_results rs : forall a, render_results rs = Ok a -> clean a.
Proof.
  induction rs as [|r rs IH]; intros a H.
  - apply Ok_inj in H; subst a. apply clean_nil.
  - cbn [render_results] in H.
    destruct (render_result r) as [x|e] eqn:Hx; [|discriminate].
    destruct (render_results rs) as [y|e] eqn:Hy; [|discriminate].
    cbn [rbind] in H. apply Ok_inj in H; subst a.
    apply clean_app; [|exact (IH y eq_refl)].
    unfold render_result in Hx. destruct (total_mentions r =? 0)%Z.
    + apply Ok_inj in Hx; subst x. apply clean_nil.
    + exact (clean_render_block r x Hx).
Qed.

Lemma clean_summary rs : clean (summary rs).
Proof.
  unfold summary.
  pose proof (plain_clean _ (plain_str_of_int (Z.of_nat (List.length rs)))).
  pose proof (plain_clean _ (plain_str_of_int
                (Z.of_nat (List.length (filter has_mentions rs))))).
  clean_pieces.
Qed.

Lemma clean_html_content rs document :
  html_content rs = Ok document -> clean document.
Proof.
  intros H. destruct (html_content_inv _ _ H) as (body & Hbody & ->).
  pose proof (clean_summary rs). pose proof (clean_render_results _ _ Hbody).
  clean_pieces.
Qed.

(** ** The markup does not depend on the texts *)

Lemma same_markup_refl a : same_markup a a.
Proof. reflexivity. Qed.

Lemma same_markup_app a a' b b' :
  same_markup a a' -> same_markup b b' -> same_markup (a ++ b) (a' ++ b').
Proof. unfold same_markup. intros Ha Hb. now rewrite !markup_app, Ha, Hb. Qed.

Lemma same_markup_plain a b : plain a -> plain b -> same_markup a b.
Proof. unfold same_markup. intros Ha Hb. now rewrite !plain_markup. Qed.

Lemma same_markup_escape a b : same_markup (Html.escape a) (Html.escape b).
Proof. apply same_markup_plain; apply plain_escape. Qed.

Local Ltac markup_pieces :=
  repeat match goal with
  | |- same_markup (_ ++ _) (_ ++ _) => apply same_markup_app
  | |- same_markup (Html.escape _) (Html.escape _) => apply same_markup_escape
  | H : same_markup ?a ?b |- same_markup ?a ?b => exact H
  | |- same_markup ?a ?a => apply same_markup_refl
  end.

Lemma same_markup_link fp url fp' url' :
  truthy url = truthy url' ->
  same_markup (render_link fp url) (render_link fp' url').
Proof.
  unfold render_link. intros <-. destruct (truthy url); markup_pieces.
Qed.

Lemma truthy_app a b : truthy a = true -> truthy (a ++ b) = true.
Proof. now destruct a. Qed.

Lemma rstrip_base :
  rstrip_char 47%N PDF_BASE_URL = lit "https://www.justice.gov/epstein/files".
Proof. vm_compute. reflexivity. Qed.

Lemma pdf_link_truthy h link :
  pdf_link h = Ok link -> truthy (snd link) = truthy (hit_get (file_path h)).
Proof.
  unfold pdf_link. destruct (truthy (hit_get (file_path h))).
  - destruct (Urllib.quote _ _) as [q|e]; [|discriminate].
    cbn [rbind]. intros H. apply Ok_inj in H. subst link. cbn [snd].
    apply truthy_app. destruct (startswith _ _); [rewrite rstrip_base|]; reflexivity.
  - intros H. apply Ok_inj in H. now subst link.
Qed.

Lemma pdf_link_blank h :
  exists link, pdf_link (blank_hit h) = Ok link
               /\ truthy (snd link) = truthy (hit_get (file_path h)).
Proof.
  unfold blank_hit.
  destruct (file_path h) as [[|c p]|]; cbn [option_map blank_text hit_get truthy].
  - eexists. split; vm_compute; reflexivity.
  - eexists. split; vm_compute; reflexivity.
  - eexists. split; vm_compute; reflexivity.
Qed.

Lemma render_hit_blank h a :
  render_hit h = Ok a ->
  exists a', render_hit (blank_hit h) = Ok a' /\ same_markup a a'.
Proof.
  unfold render_hit. destruct (pdf_link h) as [link|e] eqn:E; [|discriminate].
  destruct (pdf_link_blank h) as (link' & E' & T'). rewrite E'.
  cbn [rbind]. intros H. apply Ok_inj in H. subst a.
  eexists. split; [reflexivity|].
  assert (same_markup (render_link (fst link) (snd link))
                      (render_link (fst link') (snd link')))
    by (apply same_markup_link; rewrite T'; exact (pdf_link_truthy h link E)).
  markup_pieces.
Qed.

Lemma render_hits_blank hs :
  forall a, render_hits hs = Ok a ->
            exists a', render_hits (List.map blank_hit hs) = Ok a'
                       /\ same_markup a a'.
Proof.
  induction hs as [|h hs IH]; intros a H.
  - apply Ok_inj in H. subst a. exists []. split; reflexivity.
  - cbn [render_hits] in H.
    destruct (render_hit h) as [x|e] eqn:Hx; [|discriminate].
    destruct (render_hits hs) as [y|e] eqn:Hy; [|discriminate].
    cbn [rbind] in H. apply Ok_inj in H. subst a.
    destruct (render_hit_blank h x Hx) as (x' & Ex & Sx).
    destruct (IH y eq_refl) as (y' & Ey & Sy).
    exists (x' ++ y'). cbn [List.map render_hits]. rewrite Ex, Ey.
    split; [reflexivity | markup_pieces].
Qed.

Lemma plain_blank_info r : plain (contact_info_text (blank r)).
Proof. apply plain_contact_info_text. Qed.

Lemma block_header_blank r : same_markup (block_header r) (block_header (blank r)).
Proof.
  unfold block_header. cbn [blank name total_mentions].
  assert (same_markup (contact_info_text r) (contact_info_text (blank r)))
    by (apply same_markup_plain; apply plain_contact_info_text).
  markup_pieces.
Qed.

Lemma render_block_blank r a :
  render_block r = Ok a ->
  exists a', render_block (blank r) = Ok a' /\ same_markup a a'.
Proof.
  unfold render_block. intros H.
  pose proof (block_header_blank r) as Hh.
  cbn [blank result_hits]. fold (blank r).
  destruct (result_hits r) as [|h hs]; cbn [rbind List.map] in *.
  - apply Ok_inj in H. subst a. eexists. split; [reflexivity|].
    markup_pieces.
  - destruct (render_hits (h :: hs)) as [body|e] eqn:Hb; [|discriminate].
    cbn [rbind] in H. apply Ok_inj in H. subst a.
    destruct (render_hits_blank (h :: hs) body Hb) as (body' & Eb & Sb).
    cbn [List.map] in Eb. rewrite Eb. cbn [rbind].
    eexists. split; [reflexivity|]. markup_pieces.
Qed.

Lemma render_results_blank rs :
  forall a, render_results rs = Ok a ->
            exists a', render_results (List.map blank rs) = Ok a'
                       /\ same_markup a a'.
Proof.
  induction rs as [|r rs IH]; intros a H.
  - apply Ok_inj in H. subst a. exists []. split; reflexivity.
  - cbn [render_results] in H.
    destruct (render_result r) as [x|e] eqn:Hx; [|discriminate].
    destruct (render_results rs) as [y|e] eqn:Hy; [|discriminate].
    cbn [rbind] in H. apply Ok_inj in H. subst a.
    destruct (IH y eq_refl) as (y' & Ey & Sy).
    assert (Hr : exists x', render_result (blank r) = Ok x' /\ same_markup x x').
    { unfold render_result in *. cbn [blank total_mentions]. fold (blank r).
      destruct (total_mentions r =? 0)%Z.
      - apply Ok_inj in Hx. subst x. exists []. split; reflexivity.
      - exact (render_block_blank r x Hx). }
    destruct Hr as (x' & Ex & Sx).
    exists (x' ++ y'). cbn [List.map render_results]. rewrite Ex, Ey.
    split; [reflexivity | markup_pieces].
Qed.

Lemma with_mentions_blank rs :
  List.length (filter has_mentions (List.map blank rs))
  = List.length (filter has_mentions rs).
Proof.
  induction rs as [|r rs IH]; [reflexivity|].
  cbn [List.map filter].
  change (has_mentions (blank r)) with (has_mentions r).
  destruct (has_mentions r); cbn [List.length]; now rewrite IH.
Qed.

Lemma summary_blank rs : summary (List.map blank rs) = summary rs.
Proof. unfold summary. now rewrite length_map, with_mentions_blank. Qed.

Lemma html_content_blank rs document :
  html_content rs = Ok document ->
  exists document', html_content (List.map blank rs) = Ok document'
                    /\ markup document = markup document'.
Proof.
  intros H. destruct (html_content_inv _ _ H) as (body & Hbody & ->).
  destruct (render_results_blank rs body Hbody) as (body' & Eb & Sb).
  unfold html_content. rewrite Eb. cbn [rbind]. rewrite summary_blank.
  eexists. split; [reflexivity|].
  change (same_markup (summary rs ++ body ++ footer)
                      (summary rs ++ body' ++ footer)).
  markup_pieces.
Qed.

(** ** Every value goes through [html.escape] *)

Lemma unescape_escape_char c t :
  unescape_from 0 (Html.escape_char c ++ t) = c :: unescape_from 0 t.
Proof.
  unfold Html.escape_char.
  destruct (N.eqb_spec c 38) as [->|H38]; [reflexivity|].
  destruct (N.eqb_spec c 60) as [->|H60]; [reflexivity|].
  destruct (N.eqb_spec c 62) as [->|H62]; [reflexivity|].
  destruct (N.eqb_spec c 34) as [->|H34]; [reflexivity|].
  destruct (N.eqb_spec c 39) as [->|H39]; [reflexivity|].
  change ([c] ++ t) with (c :: t). cbn [unescape_from].
  apply N.eqb_neq in H38. now rewrite H38.
Qed.

Lemma unescape_escape s : unescape (Html.escape s) = s.
Proof.
  unfold unescape, Html.escape.
  induction s as [|c s IH]; [reflexivity|].
  cbn [flat_map]. now rewrite unescape_escape_char, IH.
Qed.

Lemma contact_info_text_expected r : contact_info_text r = expected_info r.
Proof.
  unfold contact_info_text, contact_info, expected_info, escaped_if_set.
  destruct (result_position r) as [[|c p]|];
    destruct (result_company r) as [[|c' p']|]; reflexivity.
Qed.

Lemma render_hit_expected h a : render_hit h = Ok a -> a = expected_hit h.
Proof.
  unfold render_hit, expected_hit, expected_link, shown_link, render_link.
  destruct (pdf_link h) as [[path url]|e]; [|discriminate].
  cbn [rbind fst snd]. intros H. apply Ok_inj in H. subst a.
  now destruct url.
Qed.

Lemma render_hits_expected hs :
  forall a, render_hits hs = Ok a -> a = List.concat (List.map expected_hit hs).
Proof.
  induction hs as [|h hs IH]; intros a H.
  - apply Ok_inj in H. now subst a.
  - cbn [render_hits] in H.
    destruct (render_hit h) as [x|e] eqn:Hx; [|discriminate].
    destruct (render_hits hs) as [y|e] eqn:Hy; [|discriminate].
    cbn [rbind] in H. apply Ok_inj in H. subst a.
    cbn [List.map List.concat].
    now rewrite (render_hit_expected h x Hx), (IH y eq_refl).
Qed.

Lemma render_block_expected r a : render_block r = Ok a -> a = expected_block r.
Proof.
  unfold render_block, expected_block, expected_hits, block_header.
  rewrite contact_info_text_expected.
  destruct (result_hits r) as [|h hs]; cbn [rbind].
  - intros H. apply Ok_inj in H. subst a. now rewrite <- !app_assoc.
  - destruct (render_hits (h :: hs)) as [body|e] eqn:Hb; [|discriminate].
    cbn [rbind]. intros H. apply Ok_inj in H. subst a.
    rewrite (render_hits_expected _ _ Hb). now rewrite <- !app_assoc.
Qed.

Lemma blocks_expected rs blocks :
  Forall2 (fun r block => render_block r = Ok block) rs blocks ->
  blocks = List.map expected_block rs.
Proof.
  induction 1 as [|r b rs blocks Hb _ IH]; [reflexivity|].
  cbn [List.map]. now rewrite (render_block_expected r b Hb), IH.
Qed.

Lemma html_content_expected results document :
  html_content results = Ok document ->
  document = summary results
             ++ List.concat (List.map expected_block (filter nonzero results))
             ++ footer.
Proof.
  intros H. destruct (html_content_inv _ _ H) as (body & Hbody & ->).
  destruct (render_results_blocks _ _ Hbody) as (blocks & Hblocks & ->).
  now rewrite (blocks_expected _ _ Hblocks).
Qed.

(** C7. Escaping.  Every document the renderer produces is the summary, the
    blocks of the entries with mentions and the footer, and in a block
    every text appears as what [html.escape] makes of it: the name, the
    position and the company (those given), and for every hit the preview
    and, when it has one, the URL of its link and the file path.
    [html.escape] writes none of [<], [>], the double quote and the
    apostrophe, and what it writes decodes to the text it was given, so
    that [&] is escaped too.  Hence no [<script] occurs in a document, and
    the characters that delimit tags and attribute values are those of the
    document rendered with every text replaced by a harmless one.  For the
    contact named [O'Brien <script>], position [CEO & founder], company
    [<b>Acme</b>], the block holds [O&#x27;Brien &lt;script&gt;] and
    [CEO &amp; founder at &lt;b&gt;Acme&lt;/b&gt;]. *)
Theorem texts_are_escaped :
  (forall results document,
      html_content results = Ok document ->
      document = summary results
                 ++ List.concat (List.map expected_block (filter nonzero results))
                 ++ footer
      /\ (forall prefix suffix, document <> prefix ++ lit "<script" ++ suffix)
      /\ exists document',
           html_content (List.map blank results) = Ok document'
           /\ markup document = markup document')
  /\ (forall s, unescape (Html.escape s) = s /\ plain (Html.escape s))
  /\ html_content [obrien_result] = Ok obrien_document
  /\ contains (block_open ++ lit "O&#x27;Brien &lt;script&gt;" ++ block_info)
              obrien_document = true
  /\ contains (block_open ++ lit "O&#x27;Brien &lt;script&gt;" ++ block_info
               ++ lit "CEO &amp; founder at &lt;b&gt;Acme&lt;/b&gt;" ++ block_count)
              obrien_document = true
  /\ contains (hit_open ++ lit "&lt;script&gt;alert(1)&lt;/script&gt;" ++ hit_middle
               ++ link_open
               ++ lit "https://www.justice.gov/epstein/files/DataSet%201/%3Cscript%3E.pdf"
               ++ link_middle ++ lit "DataSet 1/&lt;script&gt;.pdf" ++ link_close)
              obrien_document = true
  /\ contains (lit "<script") obrien_document = false.
Proof.
  split.
  - intros results document H. split; [|split].
    + exact (html_content_expected results document H).
    + apply clean_no_script. exact (clean_html_content results document H).
    + exact (html_content_blank results document H).
  - split.
    + intros s. split; [apply unescape_escape | apply plain_escape].
    + split; [vm_compute; reflexivity|].
      split; [vm_compute; reflexivity|].
      split; [vm_compute; reflexivity|].
      split; vm_compute; reflexivity.
Qed.

Lemma texts_are_escaped_witness :
  obrien_document = summary [obrien_result]
                    ++ List.concat (List.map expected_block
                                      (filter nonzero [obrien_result]))
                    ++ footer
  /\ (forall prefix suffix, obrien_document <> prefix ++ lit "<script" ++ suffix)
  /\ exists document',
       html_content (List.map blank [obrien_result]) = Ok document'
       /\ markup obrien_document = markup document'.
Proof.
  apply (proj1 texts_are_escaped [obrien_result] obrien_document).
  vm_compute. reflexivity.
Defined.

(* ================================================================== *)
(** * The link of a hit                                                 *)
(* ================================================================== *)

Lemma startswith_slash_respelled path :
  startswith (lit "/") (respelled path) = startswith (lit "/") path.
Proof.
  destruct path as [|c s]; [reflexivity|].
  unfold respelled, replace. cbn [replace_from].
  change (lit "/") with [47%N].
  destruct (startswith (lit "dataset") (c :: s)) eqn:E.
  - change (lit "dataset") with (100%N :: lit "ataset") in E.
    cbn [startswith] in E. apply andb_true_iff in E. destruct E as [E _].
    apply N.eqb_eq in E. subst c.
    change (lit "DataSet") with (68%N :: lit "ataSet"). reflexivity.
  - reflexivity.
Qed.

(** C8. The link of a hit.  For a hit with a non-empty file path whose
    respelled form ([dataset] rewritten to [DataSet]) percent-encodes to
    [quoted_path], slashes kept, the link is the fixed base URL followed by
    [quoted_path], the base losing its final [/] exactly when the path
    starts with one; the hit is rendered with that link, escaped, and the
    respelled path as its text.  A hit without a file path, or with an
    empty one, is rendered without a link. *)
Theorem hit_link_derivation :
  (forall hit path quoted_path,
      file_path hit = Some path ->
      path <> [] ->
      Urllib.quote (respelled path) (lit "/") = Ok quoted_path ->
      let pdf_url := expected_base path ++ quoted_path in
      pdf_link hit = Ok (respelled path, pdf_url)
      /\ render_hit hit =
         Ok (hit_open ++ Html.escape (preview_of hit) ++ hit_middle
             ++ (link_open ++ Html.escape pdf_url ++ link_middle
                 ++ Html.escape (respelled path) ++ link_close)
             ++ hit_close))
  /\ (forall hit,
         hit_get (file_path hit) = [] ->
         pdf_link hit = Ok ([], [])
         /\ render_hit hit =
            Ok (hit_open ++ Html.escape (preview_of hit) ++ hit_middle
                ++ [] ++ hit_close)).
Proof.
  split.
  - intros hit path quoted_path Hfp Hne Hq pdf_url.
    assert (E : pdf_link hit = Ok (respelled path, pdf_url)).
    { unfold pdf_link. rewrite Hfp. cbn [hit_get].
      destruct path as [|c s]; [congruence|]. cbn [truthy].
      fold (respelled (c :: s)). rewrite startswith_slash_respelled, Hq.
      cbn [rbind]. subst pdf_url. unfold expected_base.
      destruct (startswith (lit "/") (c :: s)); [rewrite rstrip_base|];
        reflexivity. }
    split; [exact E|].
    unfold render_hit. rewrite E. cbn [rbind fst snd]. unfold render_link.
    replace (truthy pdf_url) with true; [reflexivity|].
    symmetry. apply truthy_app. unfold expected_base.
    now destruct (startswith (lit "/") path).
  - intros hit Hfp.
    assert (E : pdf_link hit = Ok ([], []))
      by (unfold pdf_link; now rewrite Hfp).
    split; [exact E|].
    unfold render_hit. now rewrite E.
Qed.

Lemma hit_link_derivation_witness :
  pdf_link alice_hit =
  Ok (lit "/DataSet 9/EFTA 0001.pdf",
      lit "https://www.justice.gov/epstein/files/DataSet%209/EFTA%200001.pdf")
  /\ pdf_link (mkHit (Some (lit "no file")) None None) = Ok ([], []).
Proof.
  split.
  - apply (proj1 (proj1 hit_link_derivation alice_hit
                    (lit "/dataset 9/EFTA 0001.pdf")
                    (lit "/DataSet%209/EFTA%200001.pdf")
                    eq_refl ltac:(discriminate) ltac:(vm_compute; reflexivity))).
  - apply (proj1 (proj2 hit_link_derivation
                    (mkHit (Some (lit "no file")) None None) eq_refl)).
Defined.

(* ================================================================== *)
(** * More on the lookup client                                         *)
(* ================================================================== *)

Lemma attempts_counts remote name url max_retries :
  forall m a k,
    (a + S m = Z.to_nat max_retries)%nat ->
    let run := attempts remote name url max_retries (seq a (S m)) k in
    (1 <= requests_in (trace run) <= S m)%nat
    /\ snd run = (k + requests_in (trace run))%nat
    /\ S (sleeps_in (trace run)) = requests_in (trace run).
Proof.
  induction m as [|m IH]; intros a k Ha run; subst run.
  - change (seq a 1) with [a].
    destruct (remote url k) as [e|body] eqn:R.
    + rewrite (attempts_failure remote name url max_retries a [] k e R).
      replace (Z.of_nat a <? max_retries - 1)%Z with false
        by (symmetry; apply Z.ltb_ge; lia).
      cbn. repeat split; lia.
    + rewrite (attempts_reply remote name url max_retries a [] k body R).
      cbn. repeat split; lia.
  - change (seq a (S (S m))) with (a :: seq (S a) (S m)).
    destruct (remote url k) as [e|body] eqn:R.
    + rewrite (attempts_failure remote name url max_retries a _ k e R).
      replace (Z.of_nat a <? max_retries - 1)%Z with true
        by (symmetry; apply Z.ltb_lt; lia).
      destruct (IH (S a) (S k) ltac:(lia)) as (Hr & Hk & Hs).
      destruct (attempts remote name url max_retries (seq (S a) (S m)) (S k))
        as [[r t] k'].
      unfold after, outcome, trace, requests_in, sleeps_in in *.
      cbn [fst snd app filter is_get is_sleep List.length] in *.
      repeat split; lia.
    + rewrite (attempts_reply remote name url max_retries a _ k body R).
      cbn. repeat split; lia.
Qed.

Lemma attempts_shape remote name url max_retries :
  forall m a k,
    (a + S m = Z.to_nat max_retries)%nat ->
    exists j,
      (j <= m)%nat
      /\ (forall i, (i < j)%nat ->
                    exists e, remote url (k + i)%nat = RequestException e)
      /\ ((j < m)%nat -> exists body, remote url (k + j)%nat = Json body)
      /\ attempts remote name url max_retries (seq a (S m)) k =
         (Ok (result_of_reply (remote url (k + j)%nat)),
          retries url j ++ HttpGet url
            :: warning_of_reply name (remote url (k + j)%nat),
          (k + S j)%nat).
Proof.
  induction m as [|m IH]; intros a k Ha.
  - exists O. rewrite Nat.add_0_r, Nat.add_1_r.
    split; [lia|]. split; [intros i Hi; lia|]. split; [intros Hj; lia|].
    change (seq a 1) with [a].
    destruct (remote url k) as [e|body] eqn:R.
    + rewrite (attempts_failure remote name url max_retries a [] k e R).
      replace (Z.of_nat a <? max_retries - 1)%Z with false
        by (symmetry; apply Z.ltb_ge; lia).
      reflexivity.
    + rewrite (attempts_reply remote name url max_retries a [] k body R).
      reflexivity.
  - change (seq a (S (S m))) with (a :: seq (S a) (S m)).
    destruct (remote url k) as [e|body] eqn:R.
    + destruct (IH (S a) (S k) ltac:(lia)) as (j & Hj & Hfail & Hreply & E).
      exists (S j).
      replace (k + S j)%nat with (S k + j)%nat by lia.
      split; [lia|]. split; [|split].
      * intros [|i] Hi.
        -- exists e. now rewrite Nat.add_0_r.
        -- replace (k + S i)%nat with (S k + i)%nat by lia.
           apply Hfail. lia.
      * intros Hlt. apply Hreply. lia.
      * rewrite (attempts_failure remote name url max_retries a _ k e R).
        replace (Z.of_nat a <? max_retries - 1)%Z with true
          by (symmetry; apply Z.ltb_lt; lia).
        rewrite E. unfold after, outcome, trace. cbn [fst snd retries app].
        now replace (S k + S j)%nat with (k + S (S j))%nat by lia.
    + exists O. rewrite Nat.add_0_r, Nat.add_1_r.
      split; [lia|]. split; [intros i Hi; lia|].
      split; [intros _; now exists body|].
      rewrite (attempts_reply remote name url max_retries a _ k body R).
      rewrite R. reflexivity.
Qed.

(** X1. The attempts of a lookup.  Each request either fails in transport
    or is answered by a JSON object of the documented shape.  A lookup
    makes at most [max_retries] requests, the request count of the run
    advances by the requests made, and the sleeps are as many as the
    requests but one.  When anything happens at all, the lookup is, in this
    order: every failed request followed at once by a sleep of one second,
    then one last request, then the warning if that last request failed
    too, and nothing else.  The last request is answered unless it is the
    [max_retries]-th. *)
Theorem lookup_request_budget remote name max_retries k :
  let run := search_epstein_files remote name max_retries k in
  (requests_in (trace run) <= Z.to_nat max_retries)%nat
  /\ snd run = (k + requests_in (trace run))%nat
  /\ sleeps_in (trace run) = (requests_in (trace run) - 1)%nat
  /\ (trace run = []
      \/ exists url j,
           lookup_url name = Ok url
           /\ (S j <= Z.to_nat max_retries)%nat
           /\ (forall i, (i < j)%nat ->
                         exists e, remote url (k + i)%nat = RequestException e)
           /\ ((S j < Z.to_nat max_retries)%nat ->
               exists body, remote url (k + j)%nat = Json body)
           /\ trace run =
              retries url j ++ HttpGet url
                :: warning_of_reply name (remote url (k + j)%nat)).
Proof.
  intros run. subst run.
  destruct (lookup_url name) as [url|e] eqn:Hurl.
  - rewrite (search_epstein_files_url remote name max_retries url k Hurl).
    destruct (Z.to_nat max_retries) as [|m] eqn:Em.
    + cbn. split; [lia|]. split; [lia|]. split; [lia|]. now left.
    + destruct (attempts_counts remote name url max_retries m 0 k)
        as (Hr & Hk & Hs); [now rewrite Em|].
      split; [lia|]. split; [lia|]. split; [lia|]. right.
      destruct (attempts_shape remote name url max_retries m 0 k)
        as (j & Hj & Hfail & Hreply & E); [now rewrite Em|].
      exists url, j. split; [reflexivity|]. split; [lia|].
      split; [exact Hfail|]. split; [intros Hlt; apply Hreply; lia|].
      now rewrite E.
  - rewrite (lookup_raises remote name max_retries e k Hurl).
    cbn. split; [lia|]. split; [lia|]. split; [lia|]. now left.
Qed.

Lemma attempts_recover remote name url max_retries body :
  forall j a m k,
    (j < m)%nat ->
    (a + m = Z.to_nat max_retries)%nat ->
    (forall i, (i < j)%nat -> exists e, remote url (k + i)%nat = RequestException e) ->
    remote url (k + j)%nat = Json body ->
    attempts remote name url max_retries (seq a m) k =
    (Ok (result_of_reply (Json body)), retries url j ++ [HttpGet url],
     (k + S j)%nat).
Proof.
  induction j as [|j IH]; intros a m k Hj Ha Hfail Hreply.
  - destruct m as [|m]; [lia|].
    change (seq a (S m)) with (a :: seq (S a) m).
    rewrite Nat.add_0_r in Hreply.
    rewrite (attempts_reply remote name url max_retries a _ k body Hreply).
    now rewrite Nat.add_1_r.
  - destruct m as [|m]; [lia|].
    change (seq a (S m)) with (a :: seq (S a) m).
    destruct (Hfail O ltac:(lia)) as [e He]. rewrite Nat.add_0_r in He.
    rewrite (attempts_failure remote name url max_retries a _ k e He).
    replace (Z.of_nat a <? max_retries - 1)%Z with true
      by (symmetry; apply Z.ltb_lt; lia).
    rewrite (IH (S a) m (S k)).
    + unfold after, outcome, trace. cbn [fst snd retries app].
      replace (S k + S j)%nat with (k + S (S j))%nat by lia. reflexivity.
    + lia.
    + lia.
    + intros i Hi. replace (S k + i)%nat with (k + S i)%nat by lia.
      apply Hfail. lia.
    + replace (S k + j)%nat with (k + S j)%nat by lia. exact Hreply.
Qed.

(** X2. Recovery by retry.  When the first [j] attempts meet a transport
    failure and the next one, still within [max_retries], is answered, the
    lookup returns what the answer holds (its count and hits when the
    success flag is set, no hits otherwise) without error and without
    warning, after [j + 1] requests and [j] pauses of one second. *)
Theorem lookup_recovers remote name url max_retries body j k :
  lookup_url name = Ok url ->
  (Z.of_nat j < max_retries)%Z ->
  (forall i, (i < j)%nat -> exists e, remote url (k + i)%nat = RequestException e) ->
  remote url (k + j)%nat = Json body ->
  search_epstein_files remote name max_retries k =
  (Ok (if success body
       then mkSearchResult (body_total_hits body) (body_hits body) None
       else mkSearchResult 0 [] None),
   retries url j ++ [HttpGet url], (k + S j)%nat).
Proof.
  intros Hurl Hj Hfail Hreply.
  rewrite (search_epstein_files_url remote name max_retries url k Hurl).
  apply (attempts_recover remote name url max_retries body j 0
           (Z.to_nat max_retries) k); (lia || assumption).
Qed.

Lemma lookup_recovers_witness :
  search_epstein_files flaky (lit "Bob Jones") 3 0 =
  (Ok (mkSearchResult 5 [] None), retries bob_url 2 ++ [HttpGet bob_url], 3%nat).
Proof.
  apply (lookup_recovers flaky (lit "Bob Jones") bob_url 3%Z
           (mkApiBody true (Some (mkApiData (Some 5%Z) None))) 2%nat 0%nat).
  - vm_compute. reflexivity.
  - lia.
  - intros i Hi. exists (lit "Connection reset").
    destruct i as [|[|i]]; [reflexivity | reflexivity | lia].
  - reflexivity.
Defined.

Lemma attempts_outcome remote name url max_retries :
  forall range k,
  exists found t k',
    attempts remote name url max_retries range k = (Ok found, t, k')
    /\ (forall e, error found = Some e ->
                  total_hits found = 0%Z /\ hits found = []
                  /\ exists t0, t = t0 ++ [Stderr (warning name e)])
    /\ (error found = None -> filter is_stderr t = []).
Proof.
  induction range as [|a range IH]; intros k.
  - exists no_hits, [], k. rewrite attempts_nil.
    split; [reflexivity|]. split; [discriminate | reflexivity].
  - destruct (remote url k) as [e|body] eqn:R.
    + rewrite (attempts_failure remote name url max_retries a range k e R).
      destruct (Z.of_nat a <? max_retries - 1)%Z.
      * destruct (IH (S k)) as (found & t & k' & E & Herr & Hok).
        rewrite E. exists found, (HttpGet url :: Sleep 1 :: t), k'.
        split; [reflexivity|]. split.
        -- intros e' He'. destruct (Herr e' He') as (H1 & H2 & t0 & ->).
           split; [exact H1|]. split; [exact H2|].
           now exists (HttpGet url :: Sleep 1 :: t0).
        -- intros Hn. cbn [filter is_stderr]. exact (Hok Hn).
      * eexists _, _, _. split; [reflexivity|]. cbn [error total_hits hits]. split.
        -- intros e' He'. injection He' as <-.
           split; [reflexivity|]. split; [reflexivity|].
           now exists [HttpGet url].
        -- discriminate.
    + rewrite (attempts_reply remote name url max_retries a range k body R).
      eexists _, _, _. split; [reflexivity|].
      destruct (success body); cbn [error]; split; (discriminate || reflexivity).
Qed.

(** X3. Transport failures stay inside the lookup.  Each request either
    fails in transport (a [RequestException]: connection error, timeout,
    HTTP error status) or is answered by a JSON object of the documented
    shape, in which ['data'], when present, is an object, ['totalHits'] an
    integer and ['hits'] a list of objects; replies of another shape are
    not covered.  For a name that has a request URL the lookup then
    returns a result, whatever [max_retries] is and whichever requests
    fail.  A result that carries an error has no hits, and the warning
    with that error is the last thing the lookup did; a result without
    error comes with nothing on the error stream. *)
Theorem lookup_never_raises remote name url max_retries k :
  lookup_url name = Ok url ->
  exists found t k',
    search_epstein_files remote name max_retries k = (Ok found, t, k')
    /\ (forall e, error found = Some e ->
                  total_hits found = 0%Z /\ hits found = []
                  /\ exists t0, t = t0 ++ [Stderr (warning name e)])
    /\ (error found = None -> filter is_stderr t = []).
Proof.
  intros Hurl.
  rewrite (search_epstein_files_url remote name max_retries url k Hurl).
  apply attempts_outcome.
Qed.

Lemma lookup_never_raises_witness :
  exists found t k',
    search_epstein_files flaky (lit "Bob Jones") 2 0 = (Ok found, t, k')
    /\ (forall e, error found = Some e ->
                  total_hits found = 0%Z /\ hits found = []
                  /\ exists t0, t = t0 ++ [Stderr (warning (lit "Bob Jones") e)])
    /\ (error found = None -> filter is_stderr t = []).
Proof.
  apply (lookup_never_raises flaky (lit "Bob Jones") bob_url 2%Z 0%nat).
  vm_compute. reflexivity.
Defined.

(* ================================================================== *)
(** * Percent-encoding                                                  *)
(* ================================================================== *)

Lemma utf8_app a b :
  Urllib.utf8 (a ++ b) =
  let? x := Urllib.utf8 a in let? y := Urllib.utf8 b in Ok (x ++ y).
Proof.
  induction a as [|c a IH]; cbn [app Urllib.utf8 rbind].
  - now destruct (Urllib.utf8 b).
  - destruct (Urllib.utf8_char c) as [x|e]; [|reflexivity]. cbn [rbind].
    rewrite IH. destruct (Urllib.utf8 a) as [y|e]; [|reflexivity]. cbn [rbind].
    destruct (Urllib.utf8 b) as [z|e]; [|reflexivity]. cbn [rbind].
    now rewrite app_assoc.
Qed.

Lemma utf8_char_bytes c b :
  Urllib.utf8_char c = Ok b -> Forall (fun x => (x < 256)%N) b.
Proof.
  unfold Urllib.utf8_char.
  destruct (c <? 128)%N eqn:E1.
  { intros H. apply Ok_inj in H. subst b. apply N.ltb_lt in E1.
    repeat constructor. lia. }
  destruct (c <? 2048)%N eqn:E2.
  { intros H. apply Ok_inj in H. subst b. apply N.ltb_lt in E2.
    pose proof (N.Div0.div_lt_upper_bound c 64 32 ltac:(lia)).
    pose proof (N.mod_upper_bound c 64 ltac:(lia)).
    repeat constructor; lia. }
  destruct (c <? 65536)%N eqn:E3.
  { destruct ((55296 <=? c) && (c <=? 57343))%N; [discriminate|].
    intros H. apply Ok_inj in H. subst b. apply N.ltb_lt in E3.
    pose proof (N.Div0.div_lt_upper_bound c 4096 16 ltac:(lia)).
    pose proof (N.mod_upper_bound (c / 64) 64 ltac:(lia)).
    pose proof (N.mod_upper_bound c 64 ltac:(lia)).
    repeat constructor; lia. }
  destruct (c <? 1114112)%N eqn:E4; [|discriminate].
  intros H. apply Ok_inj in H. subst b. apply N.ltb_lt in E4.
  pose proof (N.Div0.div_lt_upper_bound c 262144 5 ltac:(lia)).
  pose proof (N.mod_upper_bound (c / 4096) 64 ltac:(lia)).
  pose proof (N.mod_upper_bound (c / 64) 64 ltac:(lia)).
  pose proof (N.mod_upper_bound c 64 ltac:(lia)).
  repeat constructor; lia.
Qed.

Lemma utf8_bytes s b :
  Urllib.utf8 s = Ok b -> Forall (fun x => (x < 256)%N) b.
Proof.
  revert b. induction s as [|c s IH]; intros b H.
  - apply Ok_inj in H. subst b. constructor.
  - cbn [Urllib.utf8] in H.
    destruct (Urllib.utf8_char c) as [x|e] eqn:Hx; [|discriminate].
    destruct (Urllib.utf8 s) as [y|e]; [|discriminate].
    cbn [rbind] in H. apply Ok_inj in H. subst b.
    apply Forall_app. split; [exact (utf8_char_bytes c x Hx) | now apply IH].
Qed.

Lemma between_true lo hi x :
  (lo <= x)%N -> (x <= hi)%N -> ((lo <=? x) && (x <=? hi))%N = true.
Proof.
  intros H1 H2. apply andb_true_iff. split; now apply N.leb_le.
Qed.

Lemma hex_digit_safe n :
  (n < 16)%N -> Urllib.always_safe (Urllib.hex_digit n) = true.
Proof.
  intros H. unfold Urllib.hex_digit, Urllib.always_safe.
  destruct (n <? 10)%N eqn:E.
  - apply N.ltb_lt in E. rewrite (between_true 48 57) by lia.
    now rewrite !orb_true_r.
  - apply N.ltb_ge in E. now rewrite (between_true 65 90) by lia.
Qed.

Lemma quote_byte_safe b :
  (b < 256)%N ->
  Forall (fun c => url_safe c = true) (Urllib.quote_byte (lit "/") b).
Proof.
  intros H. unfold Urllib.quote_byte.
  change (existsb (N.eqb b) (lit "/")) with (N.eqb b 47 || false).
  rewrite orb_false_r.
  destruct (Urllib.always_safe b || N.eqb b 47) eqn:E.
  - constructor; [|constructor]. unfold url_safe. now rewrite E.
  - pose proof (N.Div0.div_lt_upper_bound b 16 16 ltac:(lia)).
    pose proof (N.mod_upper_bound b 16 ltac:(lia)).
    constructor; [reflexivity|].
    constructor; [unfold url_safe; now rewrite hex_digit_safe|].
    constructor; [unfold url_safe; now rewrite hex_digit_safe|].
    constructor.
Qed.

Lemma quote_safe s q :
  Urllib.quote s (lit "/") = Ok q -> Forall (fun c => url_safe c = true) q.
Proof.
  unfold Urllib.quote. destruct (Urllib.utf8 s) as [b|e] eqn:Hb; [|discriminate].
  cbn [rbind]. intros H. apply Ok_inj in H. subst q.
  pose proof (utf8_bytes s b Hb) as Hbytes. clear Hb.
  induction Hbytes as [|x b Hx _ IH]; [constructor|].
  cbn [flat_map]. apply Forall_app. split; [now apply quote_byte_safe | exact IH].
Qed.

Lemma quote_app a b :
  Urllib.quote (a ++ b) (lit "/") =
  let? x := Urllib.quote a (lit "/") in
  let? y := Urllib.quote b (lit "/") in Ok (x ++ y).
Proof.
  unfold Urllib.quote. rewrite utf8_app.
  destruct (Urllib.utf8 a) as [x|e]; [|reflexivity]. cbn [rbind].
  destruct (Urllib.utf8 b) as [y|e]; [|reflexivity]. cbn [rbind].
  now rewrite flat_map_app.
Qed.

(** X4. The request URL.  The URL of a lookup is the fixed endpoint, the
    query [?q=], the percent-encoded name between two encoded double quotes
    ([%22]) and the index selector; the encoded name is made of letters,
    digits and [_ . - ~ / %] only, so that no character of a name can end
    the query value or add a parameter. *)
Theorem request_url_shape name url :
  lookup_url name = Ok url ->
  exists encoded,
    Urllib.quote name (lit "/") = Ok encoded
    /\ url = API_BASE_URL ++ lit "?q=%22" ++ encoded
             ++ lit "%22&indexes=epstein_files"
    /\ Forall (fun c => url_safe c = true) encoded.
Proof.
  unfold lookup_url.
  change (dq :: name ++ [dq]) with ([dq] ++ name ++ [dq]).
  rewrite !quote_app.
  change (Urllib.quote [dq] (lit "/")) with (Ok (A := str) (lit "%22")).
  cbn [rbind].
  destruct (Urllib.quote name (lit "/")) as [encoded|e] eqn:Hq; [|discriminate].
  cbn [rbind]. intros H. apply Ok_inj in H. subst url.
  exists encoded. split; [reflexivity|]. split.
  - rewrite <- !app_assoc. reflexivity.
  - exact (quote_safe name encoded Hq).
Qed.

Lemma request_url_shape_witness :
  exists encoded,
    Urllib.quote (lit "Bob Jones") (lit "/") = Ok encoded
    /\ bob_url = API_BASE_URL ++ lit "?q=%22" ++ encoded
                 ++ lit "%22&indexes=epstein_files"
    /\ Forall (fun c => url_safe c = true) encoded.
Proof.
  apply (request_url_shape (lit "Bob Jones") bob_url).
  vm_compute. reflexivity.
Defined.

(* ================================================================== *)
(** * More on the contact extractor                                     *)
(* ================================================================== *)

Lemma lstrip_idem s : lstrip (lstrip s) = lstrip s.
Proof.
  induction s as [|c s IH]; [reflexivity|].
  cbn [lstrip]. destruct (isspace c) eqn:E; [exact IH|].
  cbn [lstrip]. now rewrite E.
Qed.

Lemma lstrip_length s : (List.length (lstrip s) <= List.length s)%nat.
Proof.
  induction s as [|c s IH]; [reflexivity|].
  cbn [lstrip]. destruct (isspace c); cbn [List.length]; lia.
Qed.

Lemma lstrip_suffix s : exists p, s = p ++ lstrip s.
Proof.
  induction s as [|c s [p IH]]; [now exists []|].
  cbn [lstrip]. destruct (isspace c).
  - exists (c :: p). cbn [app]. now rewrite <- IH.
  - now exists [].
Qed.

Lemma rstrip_prefix s : exists w, s = rstrip s ++ w.
Proof.
  destruct (lstrip_suffix (rev s)) as [p Hp].
  exists (rev p). unfold rstrip.
  rewrite <- rev_app_distr, <- Hp. now rewrite rev_involutive.
Qed.

Lemma rstrip_idem s : rstrip (rstrip s) = rstrip s.
Proof. unfold rstrip. now rewrite rev_involutive, lstrip_idem. Qed.

Lemma lstrip_rstrip s : lstrip s = s -> lstrip (rstrip s) = rstrip s.
Proof.
  intros H. destruct (rstrip_prefix s) as [w Hw].
  destruct (rstrip s) as [|c u]; [reflexivity|].
  cbn [lstrip]. destruct (isspace c) eqn:E; [|reflexivity].
  exfalso. rewrite Hw in H. cbn [app lstrip] in H. rewrite E in H.
  pose proof (lstrip_length (u ++ w)) as Hl. rewrite H in Hl.
  cbn [List.length] in Hl. lia.
Qed.

Lemma strip_idem s : strip (strip s) = strip s.
Proof.
  unfold strip.
  rewrite (lstrip_rstrip (lstrip s) (lstrip_idem s)).
  apply rstrip_idem.
Qed.

Lemma get_stripped_trimmed row key s :
  get_stripped row key = Ok s -> trimmed s.
Proof.
  unfold get_stripped. destruct (Csv.get row (lit key) []) as [v|]; [|discriminate].
  intros H. apply Ok_inj in H. subst s. apply strip_idem.
Qed.

Lemma truthy_nonempty s : truthy s = true -> s <> [].
Proof. destruct s; [discriminate | discriminate]. Qed.

Lemma contact_of_row_well_formed row c :
  contact_of_row row = Ok (Some c) -> well_formed c.
Proof.
  unfold contact_of_row.
  destruct (get_stripped row "First Name") as [first|e] eqn:Hf; [|discriminate].
  destruct (get_stripped row "Last Name") as [last|e] eqn:Hl; [|discriminate].
  cbn [rbind].
  destruct (truthy first) eqn:Tf; [|discriminate].
  destruct (truthy last) eqn:Tl; [|discriminate].
  cbn [andb]. intros H. apply Ok_inj in H. injection H as <-.
  unfold well_formed. cbn [first_name last_name full_name].
  split; [now apply truthy_nonempty|].
  split; [now apply truthy_nonempty|].
  split; [exact (get_stripped_trimmed _ _ _ Hf)|].
  split; [exact (get_stripped_trimmed _ _ _ Hl) | reflexivity].
Qed.

Lemma read_rows_well_formed g :
  forall acc contacts,
    read_rows g acc = Ok contacts ->
    Forall well_formed acc -> Forall well_formed contacts.
Proof.
  induction g as [|row g IH|e]; intros acc contacts H Hacc.
  - apply Ok_inj in H. now subst contacts.
  - cbn [read_rows] in H.
    destruct (contact_of_row row) as [[c|]|e] eqn:Hc; cbn [rbind] in H;
      [| |discriminate].
    + apply (IH _ _ H). apply Forall_app. split; [exact Hacc|].
      constructor; [exact (contact_of_row_well_formed row c Hc) | constructor].
    + exact (IH _ _ H Hacc).
  - discriminate.
Qed.

(** X5. The contacts the extractor returns.  Whatever the file holds, every
    contact returned has a first and a last name that are not empty and
    carry no white space at either end, and its full name is the first
    name, one space and the last name. *)
Theorem parsed_contacts_well_formed decoded contacts :
  parse_linkedin_contacts decoded = Ok contacts ->
  Forall well_formed contacts.
Proof.
  unfold parse_linkedin_contacts.
  destruct (find_header (readlines (open_text decoded))) as [[header rest]|].
  - intros H. exact (read_rows_well_formed _ _ _ H (Forall_nil _)).
  - intros H. apply Ok_inj in H. subst contacts. constructor.
Qed.

Lemma parsed_contacts_well_formed_witness :
  Forall well_formed [alice; bob].
Proof.
  apply (parsed_contacts_well_formed two_contacts_csv [alice; bob]).
  vm_compute. reflexivity.
Defined.

Lemma universal_newlines_app p x :
  Forall (fun c => c <> cr) p ->
  universal_newlines (p ++ x) = p ++ universal_newlines x.
Proof.
  induction 1 as [|c p Hc _ IH]; [reflexivity|].
  cbn [app universal_newlines].
  destruct (N.eqb_spec c cr) as [->|_]; [congruence|]. now rewrite IH.
Qed.

Lemma readlines_from_line l :
  Forall (fun c => c <> nl) l ->
  forall cur x,
    readlines_from cur (l ++ nl :: x) = (rev cur ++ l ++ [nl]) :: readlines x.
Proof.
  induction 1 as [|c l Hc _ IH]; intros cur x.
  - cbn [app readlines_from]. rewrite N.eqb_refl. reflexivity.
  - cbn [app readlines_from].
    destruct (N.eqb_spec c nl) as [->|_]; [congruence|].
    rewrite IH. cbn [rev]. now rewrite <- app_assoc.
Qed.

Lemma readlines_unlines lines x :
  Forall (Forall (fun c => c <> nl)) lines ->
  readlines (unlines lines ++ x) = List.map (fun l => l ++ [nl]) lines ++ readlines x.
Proof.
  induction 1 as [|l lines Hl _ IH]; [reflexivity|].
  unfold unlines in *. cbn [List.map List.concat].
  rewrite <- !app_assoc. cbn [app].
  unfold readlines at 1. rewrite (readlines_from_line l Hl).
  cbn [rev app]. now rewrite IH.
Qed.


Lemma unlines_plain (P : char -> Prop) lines :
  P nl -> Forall (Forall P) lines -> Forall P (unlines lines).
Proof.
  intros Hnl. induction 1 as [|l lines Hl _ IH]; [constructor|].
  unfold unlines in *. cbn [List.map List.concat].
  rewrite <- app_assoc. apply Forall_app. split; [exact Hl|].
  constructor; [exact Hnl | exact IH].
Qed.



(** ** Rows without quoting *)

Lemma field_char_inv c :
  is_field_char c = true ->
  N.eqb c 44 = false /\ N.eqb c 34 = false /\ is_linebreak c = false
  /\ Csv.is_crnl c = false /\ N.eqb c cr = false /\ c <> nl.
Proof.
  unfold is_field_char. intros H.
  apply andb_true_iff in H. destruct H as [H H3].
  apply andb_true_iff in H. destruct H as [H1 H2].
  apply negb_true_iff in H1, H2, H3.
  repeat split; try assumption.
  - unfold Csv.is_crnl.
    destruct (N.eqb_spec c nl) as [->|_]; [discriminate H3|].
    destruct (N.eqb_spec c cr) as [->|_]; [discriminate H3 | reflexivity].
  - destruct (N.eqb_spec c cr) as [->|_]; [discriminate H3 | reflexivity].
  - intros ->. discriminate H3.
Qed.

Lemma in_field_step fs fd n c :
  is_field_char c = true -> (n < Csv.field_limit)%N ->
  Csv.parse_process_char (Csv.mkReader Csv.IN_FIELD fs fd n) (Some c)
  = Ok (Csv.mkReader Csv.IN_FIELD fs (c :: fd) (n + 1)).
Proof.
  intros Hc Hn. destruct (field_char_inv c Hc) as (H1 & _ & _ & H4 & _).
  unfold Csv.parse_process_char. cbn [Csv.st]. rewrite H4.
  change Csv.delimiter with 44%N. rewrite H1.
  unfold Csv.parse_add_char. cbn [Csv.field_len Csv.st Csv.fields Csv.field].
  replace (Csv.field_limit <=? n)%N with false
    by (symmetry; apply N.leb_gt; exact Hn).
  reflexivity.
Qed.

Lemma start_field_step fs c :
  is_field_char c = true ->
  Csv.parse_process_char (Csv.mkReader Csv.START_FIELD fs [] 0) (Some c)
  = Ok (Csv.mkReader Csv.IN_FIELD fs [c] 1).
Proof.
  intros Hc. destruct (field_char_inv c Hc) as (H1 & H2 & _ & H4 & _).
  unfold Csv.parse_process_char, Csv.start_field. cbn [Csv.st]. rewrite H4.
  change Csv.quotechar with 34%N. change Csv.delimiter with 44%N.
  rewrite H1, H2. reflexivity.
Qed.

Lemma in_field_chars fs f :
  Forall (fun c => is_field_char c = true) f ->
  forall fd tail,
    (N.of_nat (List.length fd + List.length f) <= Csv.field_limit)%N ->
    Csv.process_line (Csv.mkReader Csv.IN_FIELD fs fd (N.of_nat (List.length fd)))
                     (f ++ tail)
    = Csv.process_line
        (Csv.mkReader Csv.IN_FIELD fs (rev f ++ fd)
                      (N.of_nat (List.length fd + List.length f)))
        tail.
Proof.
  induction 1 as [|c f Hc _ IH]; intros fd tail Hlen.
  - cbn [app rev List.length]. now rewrite Nat.add_0_r.
  - cbn [app Csv.process_line List.length] in *.
    rewrite in_field_step by (exact Hc || lia). cbn [rbind].
    replace (N.of_nat (List.length fd) + 1)%N
      with (N.of_nat (List.length (c :: fd))) by (cbn [List.length]; lia).
    rewrite IH by (cbn [List.length]; lia).
    cbn [rev List.length]. rewrite <- app_assoc. cbn [app].
    do 3 f_equal. lia.
Qed.

Lemma consume_field fs f tail :
  simple f ->
  Csv.process_line (Csv.mkReader Csv.START_FIELD fs [] 0) (f ++ tail)
  = Csv.process_line (field_read fs f) tail.
Proof.
  intros [Hf Hlen]. destruct Hf as [|c f Hc Hf]; [reflexivity|].
  cbn [app Csv.process_line]. rewrite start_field_step by exact Hc.
  cbn [rbind].
  change (Csv.mkReader Csv.IN_FIELD fs [c] 1)
    with (Csv.mkReader Csv.IN_FIELD fs [c] (N.of_nat (List.length [c]))).
  rewrite (in_field_chars fs f Hf [c] tail) by exact Hlen.
  reflexivity.
Qed.

Lemma field_read_delimiter fs f :
  Csv.parse_process_char (field_read fs f) (Some comma)
  = Ok (Csv.mkReader Csv.START_FIELD (fs ++ [f]) [] 0).
Proof.
  destruct f as [|c f]; [reflexivity|].
  unfold field_read, Csv.parse_process_char. cbn [Csv.st].
  change (Csv.is_crnl comma) with false. change (N.eqb comma Csv.delimiter) with true.
  cbn iota. unfold Csv.parse_save_field, Csv.set_state.
  cbn [Csv.st Csv.fields Csv.field Csv.field_len]. now rewrite rev_involutive.
Qed.

Lemma field_read_eol fs f :
  Csv.parse_process_char (field_read fs f) None
  = Ok (Csv.mkReader Csv.START_RECORD (fs ++ [f]) [] 0).
Proof.
  destruct f as [|c f]; [reflexivity|].
  unfold field_read, Csv.parse_process_char. cbn [Csv.st].
  unfold Csv.parse_save_field, Csv.set_state.
  cbn [Csv.st Csv.fields Csv.field Csv.field_len]. now rewrite rev_involutive.
Qed.

Lemma process_fields fields :
  Forall simple fields -> fields <> [] ->
  forall fs,
  exists r,
    Csv.process_line (Csv.mkReader Csv.START_FIELD fs [] 0) (csv_line fields) = Ok r
    /\ Csv.parse_process_char r None
       = Ok (Csv.mkReader Csv.START_RECORD (fs ++ fields) [] 0).
Proof.
  induction 1 as [|f fields Hf Hfs IH]; [congruence|]. intros _ fs.
  destruct fields as [|g fields].
  - unfold csv_line. cbn [join].
    pose proof (consume_field fs f [] Hf) as Hend. rewrite app_nil_r in Hend.
    rewrite Hend. cbn [Csv.process_line]. eexists. split; [reflexivity|].
    apply field_read_eol.
  - unfold csv_line in *. cbn [join].
    rewrite (consume_field fs f _ Hf).
    cbn [app Csv.process_line]. rewrite field_read_delimiter. cbn [rbind].
    destruct (IH ltac:(discriminate) (fs ++ [f])) as (r & Hr & He).
    exists r. split; [exact Hr|]. rewrite He, <- app_assoc. reflexivity.
Qed.

Lemma record_start fs c line :
  Csv.is_crnl c = false ->
  Csv.process_line (Csv.mkReader Csv.START_RECORD fs [] 0) (c :: line)
  = Csv.process_line (Csv.mkReader Csv.START_FIELD fs [] 0) (c :: line).
Proof.
  intros Hc. cbn [Csv.process_line].
  assert (E : Csv.parse_process_char (Csv.mkReader Csv.START_RECORD fs [] 0) (Some c)
              = Csv.parse_process_char (Csv.mkReader Csv.START_FIELD fs [] 0) (Some c))
    by (unfold Csv.parse_process_char; cbn [Csv.st]; now rewrite Hc).
  now rewrite E.
Qed.

(** A row whose fields need no quoting, the first one not empty, is read
    back as these fields. *)
Lemma rows_from_fields f fields lines :
  f <> [] -> Forall simple (f :: fields) ->
  Csv.rows_from Csv.parse_reset (csv_line (f :: fields) :: lines)
  = Yield (f :: fields) (Csv.rows_from Csv.parse_reset lines).
Proof.
  intros Hne Hs.
  destruct (process_fields (f :: fields) Hs ltac:(discriminate) []) as (r & Hr & He).
  assert (Hstart : Csv.process_line Csv.parse_reset (csv_line (f :: fields)) = Ok r).
  { rewrite <- Hr. unfold Csv.parse_reset.
    destruct f as [|c f']; [congruence|].
    assert (Hc : Csv.is_crnl c = false).
    { inversion Hs as [|? ? [Hf _] _]; subst. inversion Hf; subst.
      now apply field_char_inv. }
    unfold csv_line. destruct fields; cbn [join app]; now apply record_start. }
  cbn [Csv.rows_from]. rewrite Hstart, He. reflexivity.
Qed.

(** ** The export read back *)

Lemma splitlines_from_line l :
  Forall (fun c => is_linebreak c = false) l ->
  forall cur x,
    splitlines_from cur (l ++ nl :: x) = (rev cur ++ l) :: splitlines x.
Proof.
  induction 1 as [|c l Hc _ IH]; intros cur x.
  - cbn [app splitlines_from]. change (N.eqb nl cr) with false.
    change (is_linebreak nl) with true. cbn iota. now rewrite app_nil_r.
  - cbn [app splitlines_from].
    destruct (N.eqb_spec c cr) as [->|_]; [discriminate Hc|].
    rewrite Hc, IH. cbn [rev]. now rewrite <- app_assoc.
Qed.

Lemma splitlines_unlines lines :
  Forall (Forall (fun c => is_linebreak c = false)) lines ->
  splitlines (unlines lines) = lines.
Proof.
  induction 1 as [|l lines Hl _ IH]; [reflexivity|].
  unfold unlines in *. cbn [List.map List.concat].
  rewrite <- app_assoc. cbn [app].
  unfold splitlines at 1. rewrite (splitlines_from_line l Hl).
  cbn [rev app]. now rewrite IH.
Qed.

Lemma csv_line_one_line fields :
  Forall simple fields ->
  Forall (fun c => is_linebreak c = false) (csv_line fields).
Proof.
  unfold csv_line. induction 1 as [|f fields [Hf _] _ IH]; [constructor|].
  assert (Hf' : Forall (fun c => is_linebreak c = false) f)
    by (eapply Forall_impl; [|exact Hf]; intros c Hc; now apply field_char_inv).
  cbn [join]. destruct fields as [|g fields]; [exact Hf'|].
  apply Forall_app. split; [exact Hf'|].
  constructor; [reflexivity | exact IH].
Qed.

Lemma header_fields_simple : Forall simple header_fields.
Proof. repeat constructor; vm_compute; congruence. Qed.

Lemma get_of_fields f1 f2 f3 f4 :
  let row := Csv.to_dict header_fields [f1; f2; f3; f4] in
  Csv.get row (lit "First Name") [] = Some f1
  /\ Csv.get row (lit "Last Name") [] = Some f2
  /\ Csv.get row (lit "Company") [] = Some f3
  /\ Csv.get row (lit "Position") [] = Some f4.
Proof. repeat split; vm_compute; reflexivity. Qed.

Lemma contact_of_row_export c :
  exportable c ->
  contact_of_row (Csv.to_dict header_fields (contact_fields c)) = Ok (Some c).
Proof.
  destruct c as [f l full co po].
  intros ((Hf & Hl & Tf & Tl & Hfull) & _ & Hco & Hpo).
  cbn [first_name last_name full_name company position] in *.
  destruct co as [co|]; [|congruence]. destruct po as [po|]; [|congruence].
  unfold contact_fields. cbn [first_name last_name company position text_of].
  destruct (get_of_fields f l co po) as (G1 & G2 & G3 & G4).
  unfold contact_of_row, get_stripped. rewrite G1, G2, G3, G4.
  unfold trimmed in Tf, Tl. rewrite Tf, Tl. cbn [rbind].
  destruct f as [|c1 f]; [congruence|]. destruct l as [|c2 l]; [congruence|].
  cbn [truthy andb]. now rewrite Hfull.
Qed.

Lemma read_rows_export cs :
  Forall exportable cs ->
  forall acc,
    read_rows (Csv.dict_rows header_fields
                 (Csv.rows_from Csv.parse_reset
                    (List.map (fun c => csv_line (contact_fields c)) cs)))
              acc
    = Ok (acc ++ cs).
Proof.
  induction 1 as [|c cs Hc _ IH]; intros acc.
  - cbn. now rewrite app_nil_r.
  - cbn [List.map].
    assert (Hrow : Csv.rows_from Csv.parse_reset
                     (csv_line (contact_fields c)
                      :: List.map (fun c => csv_line (contact_fields c)) cs)
                   = Yield (contact_fields c)
                       (Csv.rows_from Csv.parse_reset
                          (List.map (fun c => csv_line (contact_fields c)) cs))).
    { destruct Hc as ((Hf & _) & Hs & _).
      apply (rows_from_fields (first_name c)); assumption. }
    rewrite Hrow.
    change (Csv.dict_rows header_fields (Yield (contact_fields c) ?g))
      with (Yield (Csv.to_dict header_fields (contact_fields c))
                  (Csv.dict_rows header_fields g)).
    cbn [read_rows]. rewrite (contact_of_row_export c Hc). cbn [rbind].
    rewrite IH, <- app_assoc. reflexivity.
Qed.

(** X7. An export read back.  For contacts whose names are trimmed and not
    empty and whose fields need no quoting (no comma, double quote or line
    break, within the field size limit), the extractor returns, from the
    header row followed by one comma-separated row for each contact,
    exactly these contacts, in the same order. *)
Theorem export_round_trip cs :
  Forall exportable cs ->
  parse_linkedin_contacts (export cs) = Ok cs.
Proof.
  intros Hcs.
  set (rows := List.map (fun c => csv_line (contact_fields c)) cs).
  assert (Hlines : Forall (Forall (fun c => is_linebreak c = false))
                          (csv_line header_fields :: rows)).
  { constructor; [exact (csv_line_one_line _ header_fields_simple)|].
    apply Forall_map. eapply Forall_impl; [|exact Hcs].
    intros c (_ & Hs & _). now apply csv_line_one_line. }
  assert (Hnl : Forall (Forall (fun c => c <> nl)) (csv_line header_fields :: rows)).
  { eapply Forall_impl; [|exact Hlines]. intros l Hl.
    eapply Forall_impl; [|exact Hl]. intros c Hc ->. discriminate Hc. }
  assert (Hcr : Forall (fun c => c <> cr) (export cs)).
  { apply unlines_plain; [discriminate|].
    eapply Forall_impl; [|exact Hlines]. intros l Hl.
    eapply Forall_impl; [|exact Hl]. intros c Hc ->. discriminate Hc. }
  assert (Hopen : open_text (export cs) = export cs).
  { unfold open_text.
    replace (skip_bom (export cs)) with (export cs) by reflexivity.
    pose proof (universal_newlines_app (export cs) [] Hcr) as H.
    now rewrite !app_nil_r in H. }
  assert (Hread : readlines (export cs)
                  = List.map (fun l => l ++ [nl]) (csv_line header_fields :: rows)).
  { pose proof (readlines_unlines (csv_line header_fields :: rows) [] Hnl) as H.
    now rewrite !app_nil_r in H. }
  unfold parse_linkedin_contacts. rewrite Hopen, Hread.
  cbn [List.map find_header].
  replace (is_header (csv_line header_fields ++ [nl])) with true
    by (vm_compute; reflexivity).
  change ((csv_line header_fields ++ [nl])
          ++ List.concat (List.map (fun l => l ++ [nl]) rows))
    with (unlines (csv_line header_fields :: rows)).
  rewrite (splitlines_unlines _ Hlines).
  unfold Csv.DictReader, Csv.reader_rows.
  change (csv_line header_fields) with (csv_line (lit "First Name" :: tl header_fields)).
  rewrite rows_from_fields by (discriminate || exact header_fields_simple).
  exact (read_rows_export cs Hcs []).
Qed.

Lemma export_round_trip_witness :
  parse_linkedin_contacts (export [alice; bob]) = Ok [alice; bob].
Proof.
  apply (export_round_trip [alice; bob]).
  repeat constructor; vm_compute; congruence.
Defined.

(* ================================================================== *)
(** * More on the renderer                                              *)
(* ================================================================== *)

Lemma scalar_forallb s : forallb is_scalar s = true -> scalar_text s.
Proof.
  intros H. apply Forall_forall. intros c Hc.
  exact (proj1 (forallb_forall is_scalar s) H c Hc).
Qed.

Lemma scalar_app a b : scalar_text a -> scalar_text b -> scalar_text (a ++ b).
Proof. intros Ha Hb. apply Forall_app. now split. Qed.

Lemma scalar_small s : Forall (fun c => (c < 256)%N) s -> scalar_text s.
Proof.
  apply Forall_impl. intros c Hc. unfold is_scalar.
  replace (c <? 55296)%N with true by (symmetry; apply N.ltb_lt; lia).
  reflexivity.
Qed.

Lemma scalar_escape s : scalar_text s -> scalar_text (Html.escape s).
Proof.
  induction 1 as [|c s Hc _ IH]; [constructor|].
  unfold Html.escape. cbn [flat_map]. apply scalar_app; [|exact IH].
  unfold Html.escape_char.
  repeat (match goal with
          | |- scalar_text (if ?b then _ else _) => destruct b
          end; [apply scalar_forallb; reflexivity|]).
  constructor; [exact Hc | constructor].
Qed.

Lemma scalar_firstn n s : scalar_text s -> scalar_text (firstn n s).
Proof.
  intros H. revert n. induction H as [|c s Hc _ IH]; intros [|n]; cbn [firstn].
  - constructor.
  - constructor.
  - constructor.
  - constructor; [exact Hc | apply IH].
Qed.

Lemma scalar_replace_from old new s :
  scalar_text new -> scalar_text s ->
  forall k, scalar_text (replace_from old new k s).
Proof.
  intros Hnew. induction 1 as [|c s Hc _ IH]; intros k; [constructor|].
  cbn [replace_from]. destruct k as [|k]; [|apply IH].
  destruct (startswith old (c :: s)).
  - apply scalar_app; [exact Hnew | apply IH].
  - constructor; [exact Hc | apply IH].
Qed.

Lemma scalar_respelled path : scalar_text path -> scalar_text (respelled path).
Proof.
  intros H. unfold respelled, replace.
  apply scalar_replace_from; [apply scalar_forallb; reflexivity | exact H].
Qed.

Lemma quote_byte_small safe b :
  (b < 256)%N -> Forall (fun c => (c < 256)%N) (Urllib.quote_byte safe b).
Proof.
  intros H. unfold Urllib.quote_byte.
  destruct (Urllib.always_safe b || existsb (N.eqb b) safe).
  - constructor; [exact H | constructor].
  - pose proof (N.Div0.div_lt_upper_bound b 16 16 ltac:(lia)).
    pose proof (N.mod_upper_bound b 16 ltac:(lia)).
    unfold Urllib.hex_digit.
    repeat constructor; try lia.
    + destruct (b / 16 <? 10)%N; lia.
    + destruct (b mod 16 <? 10)%N; lia.
Qed.

Lemma quote_scalar s safe q :
  Urllib.quote s safe = Ok q -> scalar_text q.
Proof.
  unfold Urllib.quote. destruct (Urllib.utf8 s) as [b|e] eqn:Hb; [|discriminate].
  cbn [rbind]. intros H. apply Ok_inj in H. subst q.
  apply scalar_small. pose proof (utf8_bytes s b Hb) as Hbytes. clear Hb.
  induction Hbytes as [|x b Hx _ IH]; [constructor|].
  cbn [flat_map]. apply Forall_app. split; [now apply quote_byte_small | exact IH].
Qed.

Lemma quote_total s safe :
  scalar_text s -> exists q, Urllib.quote s safe = Ok q.
Proof.
  intros H. destruct (utf8_scalar s H) as [b Hb].
  unfold Urllib.quote. rewrite Hb. cbn [rbind]. eexists; reflexivity.
Qed.

Lemma scalar_digits n : scalar_text (digits n).
Proof.
  unfold digits. induction (N.to_uint n); cbn [digits_of_uint];
    constructor; (reflexivity || assumption).
Qed.

Lemma scalar_sign z : scalar_text (sign z).
Proof. destruct z; repeat constructor. Qed.

Lemma scalar_group_rev ds : scalar_text ds -> forall k, scalar_text (group_rev k ds).
Proof.
  induction 1 as [|d ds Hd _ IH]; intros k; [constructor|].
  cbn [group_rev].
  destruct k as [|[|[|[|k]]]];
    repeat (constructor; [reflexivity || exact Hd|]); apply IH.
Qed.

Lemma scalar_str_of_int z : scalar_text (str_of_int z).
Proof. apply scalar_app; [apply scalar_sign | apply scalar_digits]. Qed.

Lemma scalar_format_comma z : scalar_text (format_comma z).
Proof.
  apply scalar_app; [apply scalar_sign|].
  apply Forall_rev, scalar_group_rev, Forall_rev, scalar_digits.
Qed.

Lemma scalar_join sep parts :
  scalar_text sep -> Forall scalar_text parts -> scalar_text (join sep parts).
Proof.
  intros Hs. induction 1 as [|p parts Hp Hps IH]; [constructor|].
  cbn [join]. destruct parts as [|p' parts]; [exact Hp|].
  apply scalar_app; [exact Hp|]. apply scalar_app; [exact Hs | exact IH].
Qed.

Lemma scalar_escaped_if_set v :
  scalar_text (text_of v) -> Forall scalar_text (escaped_if_set v).
Proof.
  destruct v as [s|]; [|constructor]. cbn [escaped_if_set text_of]. intros H.
  destruct (truthy s); repeat constructor. now apply scalar_escape.
Qed.

Lemma scalar_contact_info_text r :
  scalar_text (text_of (result_position r)) ->
  scalar_text (text_of (result_company r)) ->
  scalar_text (contact_info_text r).
Proof.
  intros Hp Hc. unfold contact_info_text.
  assert (H : Forall scalar_text (contact_info r))
    by (apply Forall_app; split; now apply scalar_escaped_if_set).
  destruct (contact_info r) as [|p l] eqn:E; [constructor|].
  apply scalar_join; [apply scalar_forallb; reflexivity | exact H].
Qed.

(** The pieces of the template are plain ASCII. *)
Local Ltac scalar_pieces :=
  repeat match goal with
  | |- scalar_text (_ ++ _) => apply scalar_app
  | |- scalar_text [] => constructor
  | |- scalar_text (Html.escape _) => apply scalar_escape
  | H : scalar_text ?s |- scalar_text ?s => exact H
  | |- scalar_text (format_comma _) => apply scalar_format_comma
  | |- scalar_text (str_of_int _) => apply scalar_str_of_int
  | |- scalar_text _ => apply scalar_forallb; vm_compute; reflexivity
  end.

Lemma pdf_link_scalar h :
  scalar_hit h ->
  exists link, pdf_link h = Ok link
               /\ scalar_text (fst link) /\ scalar_text (snd link).
Proof.
  intros (_ & _ & Hp). unfold pdf_link.
  destruct (truthy (hit_get (file_path h))).
  - fold (respelled (hit_get (file_path h))).
    pose proof (scalar_respelled _ Hp) as Hr.
    destruct (quote_total _ (lit "/") Hr) as [q Hq]. rewrite Hq. cbn [rbind].
    pose proof (quote_scalar _ _ _ Hq) as Hqs.
    eexists. split; [reflexivity|]. cbn [fst snd]. split; [exact Hr|].
    apply scalar_app; [|exact Hqs].
    destruct (startswith _ _); apply scalar_forallb; vm_compute; reflexivity.
  - eexists. split; [reflexivity|]. cbn [fst snd]. split; [exact Hp | constructor].
Qed.

Lemma render_hit_scalar h :
  scalar_hit h -> exists a, render_hit h = Ok a /\ scalar_text a.
Proof.
  intros Hh. destruct (pdf_link_scalar h Hh) as (link & El & Hl1 & Hl2).
  unfold render_hit. rewrite El. cbn [rbind].
  eexists. split; [reflexivity|].
  assert (scalar_text (preview_of h)).
  { destruct Hh as (H1 & H2 & _). unfold preview_of.
    destruct (truthy _); [exact H1 | now apply scalar_firstn]. }
  assert (scalar_text (render_link (fst link) (snd link)))
    by (unfold render_link; destruct (truthy _); scalar_pieces).
  scalar_pieces.
Qed.

Lemma render_hits_scalar hs :
  Forall scalar_hit hs -> exists a, render_hits hs = Ok a /\ scalar_text a.
Proof.
  induction 1 as [|h hs Hh _ (b & Eb & Hb)]; [exists []; split; [reflexivity | constructor]|].
  destruct (render_hit_scalar h Hh) as (a & Ea & Ha).
  exists (a ++ b). cbn [render_hits]. rewrite Ea, Eb.
  split; [reflexivity | now apply scalar_app].
Qed.

Lemma render_result_scalar r :
  scalar_result r -> exists a, render_result r = Ok a /\ scalar_text a.
Proof.
  intros (Hn & Hp & Hc & Hh). unfold render_result.
  destruct (total_mentions r =? 0)%Z; [exists []; split; [reflexivity | constructor]|].
  pose proof (scalar_contact_info_text r Hp Hc).
  unfold render_block.
  destruct (result_hits r) as [|h hs].
  - cbn [rbind]. eexists. split; [reflexivity|].
    unfold block_header. scalar_pieces.
  - destruct (render_hits_scalar (h :: hs) Hh) as (body & Eb & Hb).
    rewrite Eb. cbn [rbind]. eexists. split; [reflexivity|].
    unfold block_header. scalar_pieces.
Qed.

Lemma render_results_scalar rs :
  Forall scalar_result rs -> exists a, render_results rs = Ok a /\ scalar_text a.
Proof.
  induction 1 as [|r rs Hr _ (b & Eb & Hb)]; [exists []; split; [reflexivity | constructor]|].
  destruct (render_result_scalar r Hr) as (a & Ea & Ha).
  exists (a ++ b). cbn [render_results]. rewrite Ea, Eb.
  split; [reflexivity | now apply scalar_app].
Qed.

Lemma generate_html_report_scalar results output_path k :
  Forall scalar_result results ->
  exists document,
    html_content results = Ok document
    /\ scalar_text document
    /\ generate_html_report results output_path k
       = (Ok tt, [OpenWrite output_path; FileWrite output_path document], k).
Proof.
  intros H. destruct (render_results_scalar results H) as (body & Eb & Hb).
  assert (Hdoc : scalar_text (summary results ++ body ++ footer))
    by (unfold summary; scalar_pieces).
  exists (summary results ++ body ++ footer).
  assert (E : html_content results = Ok (summary results ++ body ++ footer))
    by (unfold html_content; now rewrite Eb).
  split; [exact E|]. split; [exact Hdoc|].
  rewrite generate_html_report_run, E.
  destruct (utf8_scalar _ Hdoc) as [b ->]. reflexivity.
Qed.

(** X8. The document of the report can always be written.  When the texts
    of the entries (names, positions, companies, previews, contents, file
    paths) are well-formed Unicode, building the document raises nothing,
    the document is itself well-formed and has a UTF-8 encoding, so that
    writing it raises no encoding error; and the renderer touches no file
    but the output path, where it writes nothing but that document.
    Whether the output path can be opened is not part of the property. *)
Theorem report_document_is_encodable results output_path k :
  Forall scalar_result results ->
  exists document bytes,
    html_content results = Ok document
    /\ scalar_text document
    /\ Urllib.utf8 document = Ok bytes
    /\ forall event,
         In event (trace (generate_html_report results output_path k)) ->
         event = OpenWrite output_path
         \/ event = FileWrite output_path document.
Proof.
  intros H.
  destruct (generate_html_report_scalar results output_path k H)
    as (document & Hdoc & Hscalar & Hrun).
  destruct (utf8_scalar document Hscalar) as [bytes Hbytes].
  exists document, bytes.
  split; [exact Hdoc|]. split; [exact Hscalar|]. split; [exact Hbytes|].
  rewrite Hrun. cbn [trace fst snd].
  intros event [<-|[<-|[]]]; [now left | now right].
Qed.

Lemma report_document_is_encodable_witness :
  exists document bytes,
    html_content [obrien_result] = Ok document
    /\ scalar_text document
    /\ Urllib.utf8 document = Ok bytes
    /\ forall event,
         In event (trace (generate_html_report [obrien_result]
                            (lit "report.html") 0)) ->
         event = OpenWrite (lit "report.html")
         \/ event = FileWrite (lit "report.html") document.
Proof.
  apply (report_document_is_encodable [obrien_result] (lit "report.html") 0%nat).
  repeat constructor; apply scalar_forallb; vm_compute; reflexivity.
Defined.

(* ================================================================== *)
(** * Exceptions of the extractor                                       *)
(* ================================================================== *)

Lemma parse_process_char_raises r c e :
  Csv.parse_process_char r c = Raise e -> e = CsvError.
Proof.
  unfold Csv.parse_process_char, Csv.start_field, Csv.parse_add_char, rbind.
  destruct (Csv.st r); destruct c as [x|];
    repeat match goal with
           | |- context [if ?b then _ else _] => destruct b
           end;
    intros H; (discriminate H || (injection H as <-; reflexivity)).
Qed.

Lemma process_line_raises line :
  forall r e, Csv.process_line r line = Raise e -> e = CsvError.
Proof.
  induction line as [|c line IH]; intros r e H; [discriminate|].
  cbn [Csv.process_line] in H.
  destruct (Csv.parse_process_char r (Some c)) as [r'|e'] eqn:E; cbn [rbind] in H.
  - exact (IH r' e H).
  - injection H as <-. exact (parse_process_char_raises _ _ _ E).
Qed.

Lemma rows_from_thrown lines :
  forall r e, thrown (Csv.rows_from r lines) = Some e -> e = CsvError.
Proof.
  induction lines as [|line lines IH]; intros r e H.
  - cbn [Csv.rows_from] in H. destruct (_ || _) in H; discriminate.
  - cbn [Csv.rows_from] in H.
    destruct (Csv.process_line r line) as [r1|e1] eqn:E1.
    + destruct (Csv.parse_process_char r1 None) as [r2|e2] eqn:E2.
      * destruct (Csv.state_eqb (Csv.st r2) Csv.START_RECORD); cbn [thrown] in H;
          exact (IH _ _ H).
      * injection H as <-. exact (parse_process_char_raises _ _ _ E2).
    + injection H as <-. exact (process_line_raises _ _ _ E1).
Qed.

Lemma dict_rows_thrown fieldnames g :
  thrown (Csv.dict_rows fieldnames g) = thrown g.
Proof.
  induction g as [|row g IH|e]; [reflexivity | | reflexivity].
  destruct row; exact IH.
Qed.

Lemma DictReader_thrown lines e :
  thrown (Csv.DictReader lines) = Some e -> e = CsvError.
Proof.
  unfold Csv.DictReader, Csv.reader_rows.
  destruct (Csv.rows_from Csv.parse_reset lines) as [|fieldnames g|e'] eqn:E.
  - discriminate.
  - rewrite dict_rows_thrown. intros H.
    apply (rows_from_thrown lines Csv.parse_reset). now rewrite E.
  - intros H. apply (rows_from_thrown lines Csv.parse_reset). now rewrite E.
Qed.

Lemma contact_of_row_raises row e :
  contact_of_row row = Raise e -> e = AttributeError.
Proof.
  unfold contact_of_row, get_stripped, rbind.
  destruct (Csv.get row (lit "First Name") []);
    destruct (Csv.get row (lit "Last Name") []);
    try destruct (truthy _ && truthy _);
    intros H; (discriminate H || (injection H as <-; reflexivity)).
Qed.

Lemma read_rows_raises g :
  forall acc e,
    read_rows g acc = Raise e -> e = AttributeError \/ thrown g = Some e.
Proof.
  induction g as [|row g IH|e']; intros acc e H.
  - discriminate.
  - cbn [read_rows] in H.
    destruct (contact_of_row row) as [[c|]|e''] eqn:E; cbn [rbind] in H.
    + exact (IH _ _ H).
    + exact (IH _ _ H).
    + injection H as <-. left. exact (contact_of_row_raises _ _ E).
  - injection H as <-. now right.
Qed.

Lemma parse_raises decoded e :
  parse_linkedin_contacts decoded = Raise e ->
  e = AttributeError \/ e = CsvError.
Proof.
  unfold parse_linkedin_contacts.
  destruct (find_header (readlines (open_text decoded))) as [[header rest]|];
    [|discriminate].
  intros H. destruct (read_rows_raises _ _ _ H) as [->|Ht]; [now left|].
  right. exact (DictReader_thrown _ _ Ht).
Qed.

(** X9. How the extractor fails on a decoded file.  The argument is the
    text of a contacts file that has been opened and decoded as UTF-8; a
    file that cannot be opened, or whose bytes are not UTF-8, is not
    covered.  On such a text the extractor raises in two ways only:
    [AttributeError], from a row that stops before a name column, and the
    error of the csv module, from a field above its size limit. *)
Theorem extractor_exceptions decoded e :
  parse_linkedin_contacts decoded = Raise e ->
  e = AttributeError \/ e = CsvError.
Proof. exact (parse_raises decoded e). Qed.

Lemma extractor_exceptions_witness :
  AttributeError = AttributeError \/ AttributeError = CsvError.
Proof.
  apply (extractor_exceptions short_row_csv AttributeError).
  vm_compute. reflexivity.
Defined.

(* ================================================================== *)
(** * The runs of [main]                                                *)
(* ================================================================== *)

Lemma utf8_raises s e : Urllib.utf8 s = Raise e -> e = UnicodeEncodeError.
Proof.
  induction s as [|c s IH]; [discriminate|].
  cbn [Urllib.utf8].
  destruct (Urllib.utf8_char c) as [b|e'] eqn:Ec; cbn [rbind].
  - destruct (Urllib.utf8 s) as [bs|e'']; cbn [rbind]; [discriminate|].
    intros H. injection H as <-. now apply IH.
  - intros H. injection H as <-.
    unfold Urllib.utf8_char in Ec.
    repeat match type of Ec with
           | (if ?b then _ else _) = _ => destruct b
           end; (discriminate Ec || (injection Ec as <-; reflexivity)).
Qed.

Lemma quote_raises s safe e :
  Urllib.quote s safe = Raise e -> e = UnicodeEncodeError.
Proof.
  unfold Urllib.quote. destruct (Urllib.utf8 s) as [b|e'] eqn:E; [discriminate|].
  cbn [rbind]. intros H. injection H as <-. exact (utf8_raises s e' E).
Qed.

Lemma lookup_url_raises name e :
  lookup_url name = Raise e -> e = UnicodeEncodeError.
Proof.
  unfold lookup_url.
  destruct (Urllib.quote _ _) as [q|e'] eqn:E; [discriminate|].
  cbn [rbind]. intros H. injection H as <-. exact (quote_raises _ _ _ E).
Qed.

Lemma search_contacts_raises remote args n :
  forall todo i results k e,
    outcome (search_contacts remote args n i todo results k) = Raise e ->
    e = UnicodeEncodeError.
Proof.
  induction todo as [|c todo IH]; intros i results k e H; [discriminate|].
  rewrite search_contacts_cons in H.
  destruct (lookup_url (full_name c)) as [u|e'] eqn:Hu.
  - rewrite (single_lookup remote _ _ k Hu) in H. exact (IH _ _ _ _ H).
  - rewrite (lookup_raises remote _ 1 _ k Hu) in H. cbn in H.
    injection H as <-. exact (lookup_url_raises _ _ Hu).
Qed.

Lemma render_hits_raises hs e :
  render_hits hs = Raise e -> e = UnicodeEncodeError.
Proof.
  induction hs as [|h hs IH]; [discriminate|].
  cbn [render_hits]. unfold render_hit at 1, pdf_link.
  destruct (truthy (hit_get (file_path h))).
  - destruct (Urllib.quote _ _) as [q|e'] eqn:E; cbn [rbind].
    + destruct (render_hits hs) as [b|e'']; cbn [rbind]; [discriminate|].
      intros H. injection H as <-. now apply IH.
    + intros H. injection H as <-. exact (quote_raises _ _ _ E).
  - cbn [rbind]. destruct (render_hits hs) as [b|e'']; cbn [rbind]; [discriminate|].
    intros H. injection H as <-. now apply IH.
Qed.

Lemma render_results_raises rs e :
  render_results rs = Raise e -> e = UnicodeEncodeError.
Proof.
  induction rs as [|r rs IH]; [discriminate|].
  cbn [render_results].
  destruct (render_result r) as [a|e'] eqn:E; cbn [rbind].
  - destruct (render_results rs) as [b|e'']; cbn [rbind]; [discriminate|].
    intros H. injection H as <-. now apply IH.
  - intros H. injection H as <-.
    unfold render_result, render_block in E.
    destruct (total_mentions r =? 0)%Z; [discriminate|].
    destruct (result_hits r) as [|h hs]; cbn [rbind] in E; [discriminate|].
    destruct (render_hits (h :: hs)) as [b|e''] eqn:Eh; cbn [rbind] in E;
      [discriminate|].
    injection E as <-. exact (render_hits_raises _ _ Eh).
Qed.

Lemma generate_html_report_raises results out k e :
  outcome (generate_html_report results out k) = Raise e ->
  e = UnicodeEncodeError.
Proof.
  rewrite generate_html_report_run. unfold html_content.
  destruct (render_results results) as [body|e'] eqn:E; cbn [rbind].
  - destruct (Urllib.utf8 _) as [b|e''] eqn:U; cbn; [discriminate|].
    intros H. injection H as <-. exact (utf8_raises _ _ U).
  - cbn. intros H. injection H as <-. exact (render_results_raises _ _ E).
Qed.



Lemma console_stdout {A} (f : A -> str) l :
  forallb is_console (List.map (fun a => Stdout (f a)) l) = true.
Proof. induction l; [reflexivity | exact IHl]. Qed.

Lemma print_summary_run n rs out k :
  exists t, print_summary n rs out k = (Ok tt, t, k)
            /\ forallb is_console t = true.
Proof.
  unfold print_summary.
  repeat (erewrite bind_ok by reflexivity).
  destruct (filter has_mentions rs) as [|r l].
  - repeat (erewrite bind_ok by reflexivity).
    eexists. split; [reflexivity | reflexivity].
  - erewrite bind_ok.
    2:{ erewrite bind_ok by reflexivity. rewrite print_top_run. reflexivity. }
    unfold after, outcome, trace, print, emit. cbn [fst snd].
    eexists. split; [reflexivity|].
    cbn [app forallb is_console andb]. rewrite forallb_app.
    rewrite (console_stdout (fun r => lit "  " ++ format_comma6 (total_mentions r)
                               ++ lit " - " ++ name r ++ [nl])).
    reflexivity.
Qed.

Lemma search_and_report_raises remote args parsed k e :
  outcome (search_and_report remote args parsed k) = Raise e ->
  e = UnicodeEncodeError.
Proof.
  unfold search_and_report. erewrite bind_ok by reflexivity.
  destruct (search_contacts remote args (List.length parsed) 0 parsed [] k)
    as [[[rs|e'] t] k'] eqn:E.
  - erewrite bind_ok by exact E. erewrite bind_ok by reflexivity.
    destruct (generate_html_report (sort_by_mentions rs) (output args) k')
      as [[[u|e'] t'] k''] eqn:G.
    + erewrite bind_ok by exact G.
      destruct (print_summary_run (List.length parsed) (sort_by_mentions rs)
                  (output args) k'') as (ts & -> & _).
      discriminate.
    + erewrite bind_raise by exact G. cbn. intros H. injection H as <-.
      apply (generate_html_report_raises (sort_by_mentions rs) (output args) k').
      now rewrite G.
  - erewrite bind_raise by exact E. cbn. intros H. injection H as <-.
    apply (search_contacts_raises remote args (List.length parsed) parsed 0 [] k).
    now rewrite E.
Qed.

(** [main] once the file is found. *)
Lemma main_reads files remote args k path decoded :
  contacts args = Some path -> path <> [] -> files path = Some decoded ->
  main true files remote args k =
  after [Stdout (lit "Reading LinkedIn contacts from: " ++ path ++ [nl])]
    match parse_linkedin_contacts decoded with
    | Raise e => (Raise e, [], k)
    | Ok parsed =>
        after [Stdout (lit "Found " ++ str_of_int (Z.of_nat (List.length parsed))
                       ++ lit " contacts" ++ [nl])]
          match parsed with
          | [] =>
              (Raise (SystemExit 1),
               [Stderr (lit "No contacts found in CSV. Check the file format." ++ [nl])],
               k)
          | _ => search_and_report remote args parsed k
          end
    end.
Proof.
  intros Hc Hp Hf. unfold main. cbn [negb]. rewrite Hc.
  destruct path as [|c p]; [congruence|]. rewrite Hf.
  erewrite bind_ok by reflexivity. f_equal.
  destruct (parse_linkedin_contacts decoded) as [parsed|e].
  - erewrite bind_ok by reflexivity. rewrite after_nil.
    erewrite bind_ok by reflexivity. f_equal.
    destruct parsed; [|reflexivity].
    erewrite bind_ok by reflexivity. reflexivity.
  - erewrite bind_raise by reflexivity. reflexivity.
Qed.

(** X10. The exit statuses of the script itself.  [args] is the command
    line as [argparse] has parsed it; the exits of [argparse] (status 0 for
    the help, 2 for a bad option) come before and are not covered.  When
    [main] ends with an exit status of its own, the status is 1, the run
    has done nothing but print (no request, no sleep, no file opened for
    writing or written), and the cause is one of: the [requests] module is
    missing, no contacts file was given, the file does not exist, or the
    file yields no contact. *)
Theorem exit_status_one has_requests files remote args k code :
  outcome (main has_requests files remote args k) = Raise (SystemExit code) ->
  code = 1%Z
  /\ forallb is_console (trace (main has_requests files remote args k)) = true
  /\ (has_requests = false
      \/ contacts args = None \/ contacts args = Some []
      \/ (exists path, contacts args = Some path /\ files path = None)
      \/ (exists path decoded,
             contacts args = Some path /\ files path = Some decoded
             /\ parse_linkedin_contacts decoded = Ok [])).
Proof.
  destruct has_requests.
  2:{ intros H. unfold main in *. cbn [negb] in *.
      erewrite bind_ok in * by reflexivity. cbn in H. injection H as <-.
      split; [reflexivity|]. split; [reflexivity | now left]. }
  destruct (contacts args) as [[|c p]|] eqn:Hc.
  - intros H. unfold main in *. cbn [negb] in *. rewrite Hc in *.
    erewrite bind_ok in * by reflexivity. cbn in H. injection H as <-.
    split; [reflexivity|]. split; [reflexivity | now right; right; left].
  - destruct (files (c :: p)) as [decoded|] eqn:Hf.
    + rewrite (main_reads files remote args k (c :: p) decoded Hc
                 ltac:(discriminate) Hf).
      destruct (parse_linkedin_contacts decoded) as [[|c' parsed]|e] eqn:Hp.
      * cbn. intros H. injection H as <-.
        split; [reflexivity|]. split; [reflexivity|].
        right; right; right; right. now exists (c :: p), decoded.
      * intros H. exfalso.
        assert (Hr : outcome (search_and_report remote args (c' :: parsed) k)
                     = Raise (SystemExit code))
          by (destruct (search_and_report remote args (c' :: parsed) k)
                as [[r t] k']; exact H).
        apply search_and_report_raises in Hr. discriminate.
      * cbn. intros H. injection H as ->.
        destruct (parse_raises decoded _ Hp); discriminate.
    + intros H. unfold main in *. cbn [negb] in *. rewrite Hc, Hf in *.
      erewrite bind_ok in * by reflexivity. cbn in H. injection H as <-.
      split; [reflexivity|]. split; [reflexivity|].
      right; right; right; left. now exists (c :: p).
  - intros H. unfold main in *. cbn [negb] in *. rewrite Hc in *.
    erewrite bind_ok in * by reflexivity. cbn in H. injection H as <-.
    split; [reflexivity|]. split; [reflexivity | now right; left].
Qed.

Lemma exit_status_one_witness :
  1%Z = 1%Z
  /\ forallb is_console
       (trace (main true (fun _ => Some headless_csv) down scenario_args 0)) = true
  /\ (true = false
      \/ contacts scenario_args = None \/ contacts scenario_args = Some []
      \/ (exists path, contacts scenario_args = Some path
                       /\ (fun _ : str => Some headless_csv) path = None)
      \/ (exists path decoded,
             contacts scenario_args = Some path
             /\ (fun _ : str => Some headless_csv) path = Some decoded
             /\ parse_linkedin_contacts decoded = Ok [])).
Proof.
  apply (exit_status_one true (fun _ => Some headless_csv) down scenario_args 0%nat 1%Z).
  vm_compute. reflexivity.
Defined.










Lemma nonzero_has_mentions results :
  Forall (fun r => (0 <= total_mentions r)%Z) results ->
  filter nonzero results = filter has_mentions results.
Proof.
  induction 1 as [|r results Hr _ IH]; [reflexivity|].
  cbn [filter]. rewrite IH.
  replace (nonzero r) with (has_mentions r); [reflexivity|].
  unfold nonzero, has_mentions.
  destruct (Z.ltb_spec 0 (total_mentions r)), (Z.eqb_spec (total_mentions r) 0);
    cbn [negb]; (reflexivity || lia).
Qed.

(** X12. The figures of the summary.  When no count is negative, the
    document shows the number of entries, then the number of its own detail
    blocks as [Contacts with mentions], followed by exactly these blocks,
    one for each entry with a mention, in the order of the entries. *)
Theorem summary_counts_blocks results document :
  html_content results = Ok document ->
  Forall (fun r => (0 <= total_mentions r)%Z) results ->
  exists blocks,
    Forall2 (fun r block => render_block r = Ok block)
            (filter has_mentions results) blocks
    /\ document =
       head_open ++ str_of_int (Z.of_nat (List.length results)) ++ head_middle
       ++ str_of_int (Z.of_nat (List.length blocks)) ++ head_close
       ++ List.concat blocks ++ footer.
Proof.
  intros Hdoc Hnn.
  destruct (html_content_inv _ _ Hdoc) as (body & Hbody & ->).
  destruct (render_results_blocks _ _ Hbody) as (blocks & Hblocks & ->).
  rewrite (nonzero_has_mentions results Hnn) in Hblocks.
  exists blocks. split; [exact Hblocks|].
  unfold summary. rewrite (Forall2_length Hblocks), <- !app_assoc. reflexivity.
Qed.

Lemma summary_counts_blocks_witness :
  exists blocks,
    Forall2 (fun r block => render_block r = Ok block)
            (filter has_mentions [alice_result]) blocks
    /\ scenario_document =
       head_open ++ str_of_int (Z.of_nat (List.length [alice_result])) ++ head_middle
       ++ str_of_int (Z.of_nat (List.length blocks)) ++ head_close
       ++ List.concat blocks ++ footer.
Proof.
  apply (summary_counts_blocks [alice_result] scenario_document).
  - vm_compute. reflexivity.
  - constructor; [vm_compute; congruence | constructor].
Defined.






(* ================================================================== *)
(** * The respelling of [dataset]                                       *)
(* ================================================================== *)

Lemma startswith_split p :
  forall s, startswith p s = true -> exists b, s = p ++ b.
Proof.
  induction p as [|x p IH]; intros s H; [now exists s|].
  destruct s as [|y s]; [discriminate|]. cbn [startswith] in H.
  apply andb_true_iff in H. destruct H as [Hxy Hp].
  apply N.eqb_eq in Hxy. subst y.
  destruct (IH s Hp) as [b ->]. now exists b.
Qed.

Lemma contains_split p s :
  contains p s = true -> exists a b, s = a ++ p ++ b.
Proof.
  induction s as [|c s IH]; cbn [contains]; intros H.
  - rewrite orb_false_r in H. destruct (startswith_split p [] H) as [b Hb].
    now exists [], b.
  - apply orb_true_iff in H. destruct H as [H|H].
    + destruct (startswith_split p (c :: s) H) as [b Hb]. now exists [], b.
    + destruct (IH H) as (a & b & ->). now exists (c :: a), b.
Qed.

Lemma matched_app q a b : matched q (a ++ b) = matched (matched q a) b.
Proof. apply fold_left_app. Qed.

Lemma matched_seen s : matched 7 s = 7%nat.
Proof. induction s as [|c s IH]; [reflexivity | exact IH]. Qed.

Lemma advance_le q c : (q <= 7)%nat -> (advance q c <= 7)%nat.
Proof.
  intros H. unfold advance.
  destruct (Nat.leb_spec 7 q); [lia|].
  destruct (N.eqb _ c); [lia|]. destruct (N.eqb 100 c); lia.
Qed.

Lemma matched_le s : forall q, (q <= 7)%nat -> (matched q s <= 7)%nat.
Proof.
  induction s as [|c s IH]; intros q H; [exact H|].
  cbn [matched fold_left]. apply IH, advance_le, H.
Qed.

Lemma matched_dataset q : (q <= 7)%nat -> matched q dataset = 7%nat.
Proof.
  intros H. destruct q as [|[|[|[|[|[|[|[|q]]]]]]]]; (reflexivity || lia).
Qed.

Lemma matched_respelling q : (q < 7)%nat -> matched q (lit "DataSet") = 0%nat.
Proof.
  intros H. destruct q as [|[|[|[|[|[|[|q]]]]]]]; (reflexivity || lia).
Qed.

Lemma advance_keeps q c s :
  (q < 7)%nat ->
  startswith dataset (c :: s) = false ->
  ((0 < q)%nat -> startswith (skipn q dataset) (c :: s) = false) ->
  (advance q c < 7)%nat
  /\ ((0 < advance q c)%nat -> startswith (skipn (advance q c) dataset) s = false).
Proof.
  intros Hq H0 Hk. unfold advance.
  destruct q as [|[|[|[|[|[|[|q]]]]]]]; try lia;
    try specialize (Hk ltac:(lia));
    cbn [Nat.leb nth dataset skipn startswith] in *;
    repeat match goal with
           | |- context [N.eqb ?a c] =>
               let E := fresh "E" in
               destruct (N.eqb a c) eqn:E
           end;
    cbn [andb skipn dataset startswith] in *;
    split; try lia; intros _; try assumption; try discriminate.
Qed.

Lemma respelling_never_matches s :
  forall skip q,
    (q < 7)%nat ->
    ((0 < skip)%nat -> q = 0%nat) ->
    (skip = 0%nat -> (0 < q)%nat -> startswith (skipn q dataset) s = false) ->
    (matched q (replace_from dataset (lit "DataSet") skip s) < 7)%nat.
Proof.
  induction s as [|c s IH]; intros skip q Hq Hskip Hinv; [exact Hq|].
  cbn [replace_from]. destruct skip as [|k].
  - destruct (startswith dataset (c :: s)) eqn:E.
    + rewrite matched_app, matched_respelling by exact Hq.
      apply IH; [lia | reflexivity | intros _ H; lia].
    + cbn [matched fold_left]. fold (matched (advance q c)).
      destruct (advance_keeps q c s Hq E (Hinv eq_refl)) as [H1 H2].
      apply IH; [exact H1 | lia | intros _; exact H2].
  - rewrite (Hskip ltac:(lia)).
    apply IH; [lia | reflexivity | intros _ H; lia].
Qed.

Lemma replace_absent old new s :
  contains old s = false -> replace_from old new 0 s = s.
Proof.
  induction s as [|c s IH]; [reflexivity|].
  cbn [contains replace_from]. intros H.
  apply orb_false_iff in H. destruct H as [H1 H2].
  now rewrite H1, IH.
Qed.

(** X14. The respelling is complete.  After [replace('dataset', 'DataSet')]
    the file path holds no [dataset] any more, whatever the path was, and
    respelling it again changes nothing. *)
Theorem respelled_has_no_dataset path :
  contains (lit "dataset") (respelled path) = false
  /\ respelled (respelled path) = respelled path.
Proof.
  assert (Hno : contains (lit "dataset") (respelled path) = false);
    [|split; [exact Hno | exact (replace_absent _ _ _ Hno)]].
  destruct (contains (lit "dataset") (respelled path)) eqn:E; [|reflexivity].
  exfalso. destruct (contains_split _ _ E) as (a & b & Hs).
  pose proof (respelling_never_matches path 0 0 ltac:(lia) ltac:(lia)
                ltac:(intros _ H; lia)) as Hlt.
  change (replace_from dataset (lit "DataSet") 0 path) with (respelled path) in Hlt.
  rewrite Hs, !matched_app in Hlt.
  change (lit "dataset") with dataset in Hlt.
  rewrite (matched_dataset _ (matched_le a 0 ltac:(lia))), matched_seen in Hlt.
  lia.
Qed.

(* ================================================================== *)
(** * Links and line ends                                               *)
(* ================================================================== *)

Lemma escape_app a b : Html.escape (a ++ b) = Html.escape a ++ Html.escape b.
Proof. apply flat_map_app. Qed.

Lemma escape_url_safe s :
  Forall (fun c => url_safe c = true) s -> Html.escape s = s.
Proof.
  induction 1 as [|c s Hc _ IH]; [reflexivity|].
  unfold Html.escape in *. cbn [flat_map]. rewrite IH.
  unfold Html.escape_char.
  destruct (N.eqb_spec c 38) as [->|_]; [discriminate Hc|].
  destruct (N.eqb_spec c 60) as [->|_]; [discriminate Hc|].
  destruct (N.eqb_spec c 62) as [->|_]; [discriminate Hc|].
  destruct (N.eqb_spec c 34) as [->|_]; [discriminate Hc|].
  destruct (N.eqb_spec c 39) as [->|_]; [discriminate Hc|].
  reflexivity.
Qed.

(** X15. Where the links point.  The link of a hit is empty (no file path)
    or is the address of the files directory of the fixed host followed by
    a path made of letters, digits and [_ . - ~ / %] only, which begins
    with [/]; escaping it for the [href] attribute leaves it unchanged. *)
Theorem links_stay_in_files_directory hit shown pdf_url :
  pdf_link hit = Ok (shown, pdf_url) ->
  Html.escape pdf_url = pdf_url
  /\ (pdf_url = []
      \/ exists rest,
           pdf_url = files_directory ++ [47%N] ++ rest
           /\ Forall (fun c => url_safe c = true) rest).
Proof.
  unfold pdf_link.
  destruct (truthy (hit_get (file_path hit))).
  2:{ intros H. apply Ok_inj in H. apply (f_equal snd) in H. cbn [snd] in H.
      subst pdf_url. split; [reflexivity | now left]. }
  fold (respelled (hit_get (file_path hit))).
  destruct (Urllib.quote _ _) as [q|e] eqn:Hq; [|discriminate].
  cbn [rbind]. intros H. apply Ok_inj in H. apply (f_equal snd) in H.
  cbn [snd] in H. subst pdf_url.
  pose proof (quote_safe _ _ Hq) as Hsafe.
  destruct (startswith (lit "/") (respelled (hit_get (file_path hit)))) eqn:Hs.
  - rewrite rstrip_base.
    destruct (startswith_split _ _ Hs) as [b Hb].
    change (lit "/" ++ b) with ([47%N] ++ b) in Hb.
    rewrite Hb, quote_app in Hq.
    change (Urllib.quote [47%N] (lit "/")) with (Ok (A := str) [47%N]) in Hq.
    cbn [rbind] in Hq.
    destruct (Urllib.quote b (lit "/")) as [qb|e'] eqn:Hqb; [|discriminate].
    cbn [rbind] in Hq. apply Ok_inj in Hq. subst q.
    split.
    + rewrite escape_app, (escape_url_safe _ Hsafe). reflexivity.
    + right. exists qb. split; [reflexivity|].
      now inversion Hsafe.
  - split.
    + rewrite escape_app, (escape_url_safe _ Hsafe). reflexivity.
    + right. exists q. split; [|exact Hsafe].
      change PDF_BASE_URL with (files_directory ++ [47%N]).
      now rewrite <- app_assoc.
Qed.

Lemma links_stay_in_files_directory_witness :
  Html.escape (lit "https://www.justice.gov/epstein/files/DataSet%209/EFTA%200001.pdf")
  = lit "https://www.justice.gov/epstein/files/DataSet%209/EFTA%200001.pdf"
  /\ (lit "https://www.justice.gov/epstein/files/DataSet%209/EFTA%200001.pdf" = []
      \/ exists rest,
           lit "https://www.justice.gov/epstein/files/DataSet%209/EFTA%200001.pdf"
           = files_directory ++ [47%N] ++ rest
           /\ Forall (fun c => url_safe c = true) rest).
Proof.
  apply (links_stay_in_files_directory alice_hit (lit "/DataSet 9/EFTA 0001.pdf")).
  vm_compute. reflexivity.
Defined.

Lemma universal_newlines_crlf s :
  Forall (fun c => c <> cr) s -> universal_newlines (to_crlf s) = s.
Proof.
  induction 1 as [|c s Hc _ IH]; [reflexivity|].
  unfold to_crlf in *. cbn [flat_map].
  destruct (N.eqb_spec c nl) as [->|Hn].
  - cbn [app universal_newlines]. rewrite N.eqb_refl.
    change (N.eqb nl nl) with true. cbn iota. now rewrite IH.
  - cbn [app universal_newlines].
    destruct (N.eqb_spec c cr) as [->|_]; [congruence|]. now rewrite IH.
Qed.

Lemma skip_bom_crlf s : skip_bom (to_crlf s) = to_crlf (skip_bom s).
Proof.
  destruct s as [|c s]; [reflexivity|].
  unfold to_crlf. cbn [flat_map skip_bom].
  destruct (N.eqb_spec c nl) as [->|Hn]; [reflexivity|].
  cbn [app skip_bom]. destruct (N.eqb c 65279); [reflexivity|].
  cbn [flat_map]. destruct (N.eqb_spec c nl) as [->|_]; [congruence | reflexivity].
Qed.

(** X16. Windows line ends.  A file whose lines end in carriage return and
    line feed yields the same contacts, or the same exception, as the file
    with plain line feeds. *)
Theorem crlf_is_read_as_lf text :
  Forall (fun c => c <> cr) text ->
  parse_linkedin_contacts (to_crlf text) = parse_linkedin_contacts text.
Proof.
  intros H.
  assert (Hopen : open_text (to_crlf text) = open_text text).
  { unfold open_text. rewrite skip_bom_crlf.
    assert (Hs : Forall (fun c => c <> cr) (skip_bom text)).
    { destruct H as [|c s Hc Hs]; [constructor|].
      cbn [skip_bom]. destruct (N.eqb c 65279); [exact Hs | now constructor]. }
    rewrite (universal_newlines_crlf _ Hs).
    pose proof (universal_newlines_app (skip_bom text) [] Hs) as E.
    now rewrite !app_nil_r in E. }
  unfold parse_linkedin_contacts. now rewrite Hopen.
Qed.

Lemma crlf_is_read_as_lf_witness :
  parse_linkedin_contacts (to_crlf two_contacts_csv)
  = parse_linkedin_contacts two_contacts_csv.
Proof.
  apply (crlf_is_read_as_lf two_contacts_csv).
  apply Forall_forall. intros c Hc ->. revert Hc. vm_compute. intuition discriminate.
Defined.
